(** * Collaborative canvas: operation log, undo/redo, clear-all vote, replay

    A shallow embedding of [server/server.js] (the server-authoritative
    operation log, the group tracker, the undo/redo stacks, the clear-all vote
    and the presence registry) and of [client/canvas.js] (the replay engine
    with its incremental fast path and the local pointer preview).

    Conventions of the embedding.
    - JavaScript numbers that only ever hold integers (the sequence counter,
      the vote total) are [Z]; the counter is far below 2^53, where [++seq]
      is exact.
    - An absent property ([undefined]) is [None]; JavaScript truthiness of a
      string-valued property is [truthy].
    - [ops] is the array in index order ([push] appends at the end).  The two
      stacks are lists whose head is the top of the stack, that is the last
      element of the JavaScript array.
    - [groups], [users], [lastSeg] and [currBrush] are [Map]s, [vote.yes] is a
      [Set]: they are [gmap]s and a [gset].
    - [crypto.randomUUID()] is an external source: every value it returns is
      an explicit argument of the function that calls it.
    - Messages are objects of the shape the handlers read: [kind] is a string
      and [data] is an object. *)

From Stdlib Require Import ZArith String Ascii Lia.
From stdpp Require Import base gmap sets list strings sorting.

Local Open Scope string_scope.
Local Open Scope list_scope.

(** ** Strings *)

(** [String.prototype.startsWith] *)
Definition startsWith (pre s : string) : bool := String.prefix pre s.

(** [String.prototype.endsWith] *)
Definition endsWith (suf s : string) : bool :=
  let n := String.length s in
  let m := String.length suf in
  (m <=? n)%nat && String.eqb (String.substring (n - m) m s) suf.

(** Truthiness of a property that is a string when present. *)
Definition truthy (o : option string) : bool :=
  match o with
  | Some s => negb (String.eqb s "")
  | None => false
  end.

(** ** Messages and operations (shared by server and client) *)

Record point := Point { px : Z; py : Z; pt : Z }.

Record brush := Brush { color : string; width : Z; mode : string }.

(** The [data] object of an operation. *)
Record payload := Payload {
  userId : option string;
  groupId : option string;
  p : option point;
  d_brush : option brush;
  d_by : option string
}.

Record op := Op {
  op_seq : Z;
  op_id : string;
  op_kind : string;
  op_data : payload;
  op_tombstone : bool
}.

Definition set_op_tombstone (val : bool) (o : op) : op :=
  Op (op_seq o) (op_id o) (op_kind o) (op_data o) val.

Definition set_groupId (g : option string) (d : payload) : payload :=
  Payload (userId d) g (p d) (d_brush d) (d_by d).

#[global] Instance point_eq_dec : EqDecision point.
Proof. solve_decision. Defined.
#[global] Instance brush_eq_dec : EqDecision brush.
Proof. solve_decision. Defined.
#[global] Instance payload_eq_dec : EqDecision payload.
Proof. solve_decision. Defined.
#[global] Instance op_eq_dec : EqDecision op.
Proof. solve_decision. Defined.

(** ** The server: [server/server.js] *)

Module Server.

(** A key of the [groups] map: whatever [data.groupId] holds. *)
Abbreviation gid := (option string).

Record group := Group {
  g_kind : string;
  g_by : option string;
  g_seqs : list Z;
  g_tombstone : bool
}.

Record user := User { u_id : string; u_color : string }.

Record vote_t := Vote {
  inProgress : bool;
  yes : gset string;
  totalAtStart : Z
}.

Record state := State {
  seq : Z;
  ops : list op;
  groups : gmap gid group;
  undoStack : list gid;
  redoStack : list gid;
  users : gmap string user;
  vote : vote_t
}.

Definition initial : state :=
  State 0 [] ∅ [] [] ∅ (Vote false ∅ 0).

Definition COLORS : list string :=
  ["#f44336"; "#3f51b5"; "#009688"; "#ff9800"; "#9c27b0";
   "#03a9f4"; "#8bc34a"; "#795548"; "#e91e63"; "#00bcd4"].

(** [COLORS[i % COLORS.length]]; the default stands for [undefined] and is
    never reached. *)
Definition nextColor (i : nat) : string :=
  nth (i mod length COLORS) COLORS "".

Definition set_g_tombstone (val : bool) (g : group) : group :=
  Group (g_kind g) (g_by g) (g_seqs g) val.

Definition push_g_seq (s : Z) (g : group) : group :=
  Group (g_kind g) (g_by g) (g_seqs g ++ [s]) (g_tombstone g).

(** [addOp(kind, data)]; [uuid] is the value of [crypto.randomUUID()]. *)
Definition addOp (uuid kind : string) (data : payload) (st : state)
  : op * state :=
  let n := (seq st + 1)%Z in
  let o := Op n uuid kind data false in
  let log := ops st ++ [o] in
  if endsWith ":start" kind then
    (o, State n log
          (<[groupId data := Group kind (userId data) [n] false]> (groups st))
          (undoStack st) (redoStack st) (users st) (vote st))
  else if endsWith ":point" kind then
    match groups st !! groupId data with
    | Some g =>
        (o, State n log (<[groupId data := push_g_seq n g]> (groups st))
              (undoStack st) (redoStack st) (users st) (vote st))
    | None =>
        (o, State n log (groups st) (undoStack st) (redoStack st)
              (users st) (vote st))
    end
  else if endsWith ":end" kind then
    match groups st !! groupId data with
    | Some g =>
        (o, State n log (<[groupId data := push_g_seq n g]> (groups st))
              (groupId data :: undoStack st) [] (users st) (vote st))
    | None =>
        (o, State n log (groups st) (undoStack st) (redoStack st)
              (users st) (vote st))
    end
  else if String.eqb kind "system:clear_all" then
    (o, State n log (groups st) [] [] (users st) (vote st))
  else
    (o, State n log (groups st) (undoStack st) (redoStack st)
          (users st) (vote st)).

(** [const o = ops.find(x => x.seq === s); if (o) o.tombstone = val] *)
Fixpoint markFirst (val : bool) (s : Z) (l : list op) : list op :=
  match l with
  | [] => []
  | o :: r =>
      if (op_seq o =? s)%Z then set_op_tombstone val o :: r
      else o :: markFirst val s r
  end.

(** The loop [for (const s of g.seqs) ...] of [setGroupTombstone]. *)
Definition markAll (val : bool) (ss : list Z) (l : list op) : list op :=
  foldl (fun acc s => markFirst val s acc) l ss.

Definition setGroupTombstone (g : gid) (val : bool) (st : state)
  : bool * state :=
  match groups st !! g with
  | None => (false, st)
  | Some gr =>
      (true, State (seq st) (markAll val (g_seqs gr) (ops st))
               (<[g := set_g_tombstone val gr]> (groups st))
               (undoStack st) (redoStack st) (users st) (vote st))
  end.

Definition set_stacks (u r : list gid) (st : state) : state :=
  State (seq st) (ops st) (groups st) u r (users st) (vote st).

(** The [while (undoStack.length)] loop of [performUndo], by recursion on
    the stack it pops; [None] is the [null] it returns when the stack runs
    empty. *)
Fixpoint undoLoop (stack : list gid) (st : state) : option gid * state :=
  match stack with
  | [] => (None, set_stacks [] (redoStack st) st)
  | g :: rest =>
      match groups st !! g with
      | Some gr =>
          if negb (g_tombstone gr) then
            let st1 := snd (setGroupTombstone g true st) in
            (Some g, set_stacks rest (g :: redoStack st1) st1)
          else undoLoop rest st
      | None => undoLoop rest st
      end
  end.

Definition performUndo (st : state) : option gid * state :=
  undoLoop (undoStack st) st.

(** The [while (redoStack.length)] loop of [performRedo]. *)
Fixpoint redoLoop (stack : list gid) (st : state) : option gid * state :=
  match stack with
  | [] => (None, set_stacks (undoStack st) [] st)
  | g :: rest =>
      match groups st !! g with
      | Some gr =>
          if g_tombstone gr then
            let st1 := snd (setGroupTombstone g false st) in
            (Some g, set_stacks (g :: undoStack st1) rest st1)
          else redoLoop rest st
      | None => redoLoop rest st
      end
  end.

Definition performRedo (st : state) : option gid * state :=
  redoLoop (redoStack st) st.

Definition set_vote (v : vote_t) (st : state) : state :=
  State (seq st) (ops st) (groups st) (undoStack st) (redoStack st)
    (users st) v.

(** [finalizeClear()]; [uuid] is the identity of the marker operation. *)
Definition finalizeClear (uuid : string) (st : state) : state :=
  let '(sys, st1) :=
    addOp uuid "system:clear_all" (Payload None None None None (Some "vote")) st in
  State (seq st1)
    ((fun o => if String.eqb (op_id o) (op_id sys) then o
               else set_op_tombstone true o) <$> ops st1)
    (set_g_tombstone true <$> groups st1)
    (undoStack st1) (redoStack st1) (users st1)
    (Vote false (yes (vote st1)) (totalAtStart (vote st1))).

(** [if (vote.yes.size >= vote.totalAtStart) finalizeClear()] *)
Definition checkQuorum (uuid : string) (st : state) : state :=
  if (totalAtStart (vote st) <=? Z.of_nat (size (yes (vote st))))%Z
  then finalizeClear uuid st else st.

(** [io.on('connection', ...)] *)
Definition on_connection (sid : string) (st : state) : state :=
  State (seq st) (ops st) (groups st) (undoStack st) (redoStack st)
    (<[sid := User sid (nextColor (size (users st)))]> (users st))
    (vote st).

(** [socket.on('client:op', ...)]; [uuidG] is the group identity minted
    when the guard holds, [uuidO] the identity [addOp] draws. *)
Definition mint (uuidG kind : string) (data : payload) : payload :=
  if (startsWith "stroke:" kind || startsWith "erase:" kind)
     && negb (truthy (groupId data))
  then set_groupId (Some uuidG) data else data.

Definition on_client_op (uuidG uuidO kind : string) (data : payload)
    (st : state) : state :=
  snd (addOp uuidO kind (mint uuidG kind data) st).

Definition on_client_undo (st : state) : state := snd (performUndo st).
Definition on_client_redo (st : state) : state := snd (performRedo st).

(** [socket.on('client:clear_all_request', ...)] *)
Definition on_clear_all_request (sid uuid : string) (st : state) : state :=
  if inProgress (vote st) then st
  else
    checkQuorum uuid
      (set_vote (Vote true {[sid]} (Z.of_nat (size (users st)))) st).

(** [socket.on('client:clear_all_vote', ...)] *)
Definition on_clear_all_vote (sid : string) (y : bool) (uuid : string)
    (st : state) : state :=
  if negb (inProgress (vote st)) then st
  else
    let v := vote st in
    checkQuorum uuid
      (set_vote (Vote (inProgress v)
                   (if y then {[sid]} ∪ yes v else yes v)
                   (totalAtStart v)) st).

(** [socket.on('disconnect', ...)] *)
Definition on_disconnect (sid uuid : string) (st : state) : state :=
  let st1 :=
    State (seq st) (ops st) (groups st) (undoStack st) (redoStack st)
      (delete sid (users st)) (vote st) in
  if inProgress (vote st1) then
    let v := vote st1 in
    checkQuorum uuid
      (set_vote (Vote (inProgress v) (yes v)
                   (Z.max (totalAtStart v - 1) 0)) st1)
  else st1.

(** What the server receives: one constructor per handler that changes
    the room state, with the socket it arrives on and the values
    [crypto.randomUUID()] hands out while it is processed. *)
Inductive event :=
| Connection (sid : string)
| ClientOp (sid uuidG uuidO kind : string) (data : payload)
| ClientUndo (sid : string)
| ClientRedo (sid : string)
| ClearAllRequest (sid uuid : string)
| ClearAllVote (sid : string) (y : bool) (uuid : string)
| Disconnect (sid uuid : string).

Definition step (st : state) (e : event) : state :=
  match e with
  | Connection sid => on_connection sid st
  | ClientOp _ uuidG uuidO kind data => on_client_op uuidG uuidO kind data st
  | ClientUndo _ => on_client_undo st
  | ClientRedo _ => on_client_redo st
  | ClearAllRequest sid uuid => on_clear_all_request sid uuid st
  | ClearAllVote sid y uuid => on_clear_all_vote sid y uuid st
  | Disconnect sid uuid => on_disconnect sid uuid st
  end.

Definition run (es : list event) (st : state) : state := foldl step st es.

End Server.

(** ** The client replay engine: [client/canvas.js] *)

Module Canvas.

(** One [g.stroke()] of [drawSegment], with the context settings it is
    made under ([lineCap] and [lineJoin] are always ['round']) and the
    coordinates of its two ends.  A surface is the record of the strokes
    made on it since it was last cleared, oldest first: the pixels of a
    canvas are a function of that record, and the empty record is the
    cleared, fully transparent canvas. *)
Record stroke := Stroke {
  globalCompositeOperation : string;
  strokeStyle : string;
  lineWidth : Z;
  moveTo : Z * Z;
  lineTo : Z * Z
}.

#[global] Instance stroke_eq_dec : EqDecision stroke.
Proof. solve_decision. Defined.

Abbreviation surface := (list stroke).

(** The state of [createCanvasSystem]: the mirrored log, the offscreen
    and the visible canvas, and the two per-user caches. *)
Record state := State {
  opLog : list op;
  offscreen : surface;
  visible : surface;
  lastSeg : gmap string point;
  currBrush : gmap string brush
}.

Definition initial : state := State [] [] [] ∅ ∅.

(** [drawSegment(g, p0, p1, width, color, mode)] on the surface [g]. *)
Definition drawSegment (g : surface) (p0 p1 : option point)
    (width : Z) (color mode : string) : surface :=
  match p0, p1 with
  | Some a, Some b =>
      if String.eqb mode "eraser"
      then g ++ [Stroke "destination-out" "rgba(0,0,0,1)" width
                   (px a, py a) (px b, py b)]
      else g ++ [Stroke "source-over" color width (px a, py a) (px b, py b)]
  | _, _ => g
  end.

(** [blit()]: the visible canvas is cleared and receives the offscreen
    one (the cursor overlay is DOM, not canvas). *)
Definition blit (st : state) : state :=
  State (opLog st) (offscreen st) (offscreen st) (lastSeg st) (currBrush st).

(** [lastSeg.set(uid, v)] where [v] may be [undefined]: the map is only
    ever read with [get], which does not tell an [undefined] value from a
    missing key. *)
Definition setLast (uid : string) (v : option point)
    (m : gmap string point) : gmap string point :=
  match v with
  | Some q => <[uid := q]> m
  | None => delete uid m
  end.

Definition modeOf (k : string) : string :=
  if startsWith "erase" k then "eraser" else "brush".

(** [applyOpToContext(octx, op)] *)
Definition applyOpToContext (o : op) (st : state) : state :=
  let d := op_data o in
  let k := op_kind o in
  match userId d with
  | None => st
  | Some uid =>
      if negb (truthy (Some uid)) then st
      else if endsWith ":start" k then
        let mode := modeOf k in
        let b := default (Brush "#222" 4 mode) (d_brush d) in
        State (opLog st) (offscreen st) (visible st)
          (setLast uid (p d) (lastSeg st))
          (<[uid := Brush (color b) (width b) mode]> (currBrush st))
      else if endsWith ":point" k then
        let p0 := lastSeg st !! uid in
        let p1 := p d in
        let brush := default (Brush "#222" 4 (modeOf k)) (currBrush st !! uid) in
        State (opLog st)
          (drawSegment (offscreen st) p0 p1 (width brush) (color brush) (mode brush))
          (visible st)
          (setLast uid p1 (lastSeg st))
          (currBrush st)
      else if endsWith ":end" k then
        State (opLog st) (offscreen st) (visible st)
          (delete uid (lastSeg st)) (delete uid (currBrush st))
      else st
  end.

(** The body of the loop of [fullReplay]. *)
Definition replayStep (st : state) (o : op) : state :=
  if op_tombstone o then st else applyOpToContext o st.

(** [fullReplay()] *)
Definition fullReplay (st : state) : state :=
  blit (foldl replayStep (State (opLog st) [] (visible st) ∅ ∅) (opLog st)).

(** [setOpLog(newLog)] *)
Definition setOpLog (newLog : list op) (st : state) : state :=
  fullReplay
    (State newLog (offscreen st) (visible st) (lastSeg st) (currBrush st)).

Definition pushOp (o : op) (st : state) : state :=
  State (opLog st ++ [o]) (offscreen st) (visible st) (lastSeg st)
    (currBrush st).

(** [applyOp(op)] *)
Definition applyOp (o : op) (st : state) : state :=
  let st1 := pushOp o st in
  if op_tombstone o || String.eqb (op_kind o) "system:clear_all"
     || endsWith ":end" (op_kind o)
  then fullReplay st1
  else blit (applyOpToContext o st1).

(** [resize()]: setting the dimensions clears both canvases, then the
    log is replayed. *)
Definition resize (st : state) : state :=
  fullReplay (State (opLog st) [] [] (lastSeg st) (currBrush st)).

(** The closure state of [initPointerHandlers]. *)
Record pointer := Pointer {
  ph_brush : brush;
  drawing : bool;
  lastLocal : option point;
  currentGroup : option string
}.

Definition initPointerHandlers (defaultBrush : brush) : pointer :=
  Pointer defaultBrush false None None.

(** What the handlers read of a pointer event: [e.pointerType === 'mouse'],
    [e.button] and [pointerPos(e)]. *)
Record pointerEvent := PointerEvent {
  isMouse : bool;
  button : Z;
  pointerPos : point
}.

(** [down(e)]; [myId] is [getMyId()] and [uuid] is [cryptoRandomId()]. *)
Definition down (myId : option string) (uuid : string) (e : pointerEvent)
    (c : state * pointer) : state * pointer :=
  let '(st, h) := c in
  if isMouse e && negb (button e =? 0)%Z then c
  else
    let q := pointerPos e in
    (applyOp (Op (-1) "local" "stroke:start"
                (Payload myId (Some uuid) (Some q) (Some (ph_brush h)) None)
                false) st,
     Pointer (ph_brush h) true (Some q) (Some uuid)).

(** [move(e)] *)
Definition move (myId : option string) (e : pointerEvent)
    (c : state * pointer) : state * pointer :=
  let '(st, h) := c in
  let q := pointerPos e in
  if negb (drawing h) then c
  else
    (blit (applyOpToContext
             (Op (-1) "localpoint" "stroke:point"
                (Payload myId (currentGroup h) (Some q) None None) false) st),
     Pointer (ph_brush h) (drawing h) (Some q) (currentGroup h)).

(** [up(e)] *)
Definition up (myId : option string) (c : state * pointer)
    : state * pointer :=
  let '(st, h) := c in
  if negb (drawing h) then c
  else
    (applyOp (Op (-1) "localend" "stroke:end"
                (Payload myId (currentGroup h) None None None) false) st,
     Pointer (ph_brush h) false (lastLocal h) None).

(** The surface and the caches agree with a replay of the log. *)
Definition inSync (st : state) : Prop := fullReplay st = st.

End Canvas.

(** ** Vocabulary of the statements *)

(** A sequence of calls of [addOp], each with the identity it draws. *)
Definition appendAll (calls : list (string * string * payload))
    (st : Server.state) : Server.state :=
  foldl (fun s c => snd (Server.addOp c.1.1 c.1.2 c.2 s)) st calls.

Definition seqsOf (l : list op) : list Z := op_seq <$> l.

(** The log carries increasing sequence numbers, none above the counter. *)
Record logInv (st : Server.state) : Prop := LogInv {
  log_sorted : StronglySorted Z.lt (seqsOf (Server.ops st));
  log_bound : Forall (fun s => (s <= Server.seq st)%Z) (seqsOf (Server.ops st))
}.

(** What every reachable server state satisfies. *)
Record serverInv (st : Server.state) : Prop := ServerInv {
  inv_log : logInv st;
  inv_members : ∀ g gr s,
    Server.groups st !! g = Some gr → s ∈ Server.g_seqs gr →
    (s <= Server.seq st)%Z;
  inv_disjoint : ∀ g1 g2 gr1 gr2 s,
    g1 ≠ g2 → Server.groups st !! g1 = Some gr1 →
    Server.groups st !! g2 = Some gr2 →
    s ∈ Server.g_seqs gr1 → s ∉ Server.g_seqs gr2;
  inv_live : ∀ g gr o,
    Server.groups st !! g = Some gr → Server.g_tombstone gr = false →
    o ∈ Server.ops st → op_seq o ∈ Server.g_seqs gr →
    op_tombstone o = false
}.

(** The invariant of the data model: a group and its member operations
    carry the same tombstone. *)
Definition groupsAtomic (st : Server.state) : Prop :=
  ∀ g gr o,
    Server.groups st !! g = Some gr → o ∈ Server.ops st →
    op_seq o ∈ Server.g_seqs gr →
    op_tombstone o = Server.g_tombstone gr.

(** Nothing can be undone or redone: the undo stack only refers to
    groups that are tombstoned or gone, and the redo stack is empty. *)
Definition undoVacuous (st : Server.state) : Prop :=
  Forall (fun g => ∀ gr, Server.groups st !! g = Some gr →
                         Server.g_tombstone gr = true)
    (Server.undoStack st)
  ∧ Server.redoStack st = [].

(** The event completes a stroke: it is an end operation for a group
    that is not tombstoned. *)
Definition completesStroke (st : Server.state) (e : Server.event) : bool :=
  match e with
  | Server.ClientOp _ uuidG _ kind data =>
      endsWith ":end" kind
      && match Server.groups st !! groupId (Server.mint uuidG kind data) with
         | Some gr => negb (Server.g_tombstone gr)
         | None => false
         end
  | _ => false
  end.

(** The event starts a stroke under a group identity that the undo stack
    still refers to, instead of a fresh one. *)
Definition restartsStacked (st : Server.state) (e : Server.event) : bool :=
  match e with
  | Server.ClientOp _ uuidG _ kind data =>
      endsWith ":start" kind
      && bool_decide (groupId (Server.mint uuidG kind data)
                      ∈ Server.undoStack st)
  | _ => false
  end.

(** A run from [st] in which no stroke is completed, strokes being
    started under fresh group identities. *)
Fixpoint noStrokeCompleted (st : Server.state) (es : list Server.event)
    : bool :=
  match es with
  | [] => true
  | e :: es' =>
      negb (completesStroke st e) && negb (restartsStacked st e)
      && noStrokeCompleted (Server.step st e) es'
  end.

(** A run from [st] in which no stroke is completed: no end operation
    reaches a group that is not tombstoned. *)
Fixpoint noLiveEnd (st : Server.state) (es : list Server.event) : bool :=
  match es with
  | [] => true
  | e :: es' => negb (completesStroke st e) && noLiveEnd (Server.step st e) es'
  end.

Definition isDisconnect (e : Server.event) : bool :=
  match e with
  | Server.Disconnect _ _ => true
  | _ => false
  end.

(** The sockets that joined, in join order. *)
Definition joined (es : list Server.event) : list string :=
  omap (fun e => match e with Server.Connection sid => Some sid | _ => None end) es.

(** The color of a connected user. *)
Definition colorOf (sid : string) (st : Server.state) : option string :=
  Server.u_color <$> Server.users st !! sid.

(** What a client shows after loading a snapshot of the log: the surface
    a full replay of the non-tombstoned operations produces. *)
Definition render (log : list op) : Canvas.surface :=
  Canvas.offscreen (Canvas.setOpLog log Canvas.initial).

(** The marker operation [finalizeClear] appends. *)
Definition clearMarker (n : Z) (uuid : string) : op :=
  Op n uuid "system:clear_all" (Payload None None None None (Some "vote")) false.

(** The same engine state with another log and another visible canvas:
    neither is read when an operation is applied. *)
Definition reframe (l : list op) (v : Canvas.surface) (st : Canvas.state)
    : Canvas.state :=
  Canvas.State l (Canvas.offscreen st) v (Canvas.lastSeg st)
    (Canvas.currBrush st).

(** The loop of [fullReplay] run over the log [l]. *)
Definition replayOf (l : list op) : Canvas.state :=
  foldl Canvas.replayStep (Canvas.State l [] [] ∅ ∅) l.

(** ** Payloads and runs used as concrete inputs *)

(** The payloads [canvas.js] emits for the three stages of a stroke. *)
Definition startData (u g : string) (q : point) : payload :=
  Payload (Some u) (Some g) (Some q) (Some (Brush "#222" 4 "brush")) None.

Definition pointData (u g : string) (q : point) : payload :=
  Payload (Some u) (Some g) (Some q) None None.

Definition endData (u g : string) : payload :=
  Payload (Some u) (Some g) None None None.

(** One user draws one complete stroke. *)
Definition oneStroke : list Server.event :=
  [Server.Connection "a";
   Server.ClientOp "a" "-" "o1" "stroke:start" (startData "a" "g1" (Point 0 0 0));
   Server.ClientOp "a" "-" "o2" "stroke:point" (pointData "a" "g1" (Point 5 5 1));
   Server.ClientOp "a" "-" "o3" "stroke:end" (endData "a" "g1")].

(** [a] is in the middle of a stroke when a clear-all that [b] requested
    finalizes on [a]'s own vote; [a] then goes on drawing. *)
Definition clearedMidStroke : list Server.event :=
  [Server.Connection "a";
   Server.Connection "b";
   Server.ClientOp "a" "-" "o1" "stroke:start" (startData "a" "g1" (Point 0 0 0));
   Server.ClearAllRequest "b" "m1";
   Server.ClearAllVote "a" true "m2";
   Server.ClientOp "a" "-" "o3" "stroke:point" (pointData "a" "g1" (Point 5 5 1))].

(** Three users; [u1] requests a clear-all, [u3] votes no, [u1] leaves. *)
Definition requesterLeaves : list Server.event :=
  [Server.Connection "u1";
   Server.Connection "u2";
   Server.Connection "u3";
   Server.ClearAllRequest "u1" "m1";
   Server.ClearAllVote "u3" false "m2";
   Server.Disconnect "u1" "m3"].

(** Two users join, the first leaves, a third joins. *)
Definition joinLeaveJoin : list Server.event :=
  [Server.Connection "s0";
   Server.Connection "s1";
   Server.Disconnect "s0" "m1";
   Server.Connection "s2"].

(** A client that has received the start and a first point of [bob]'s
    stroke from the server. *)
Definition bobDrawing : Canvas.state :=
  Canvas.applyOp
    (Op 2 "o2" "stroke:point" (pointData "bob" "gb" (Point 0 20 1)) false)
    (Canvas.applyOp
       (Op 1 "o1" "stroke:start" (startData "bob" "gb" (Point 0 0 0)) false)
       Canvas.initial).

(** The local user then presses the pointer at (10,10) and moves it to
    (20,20): the move paints a preview segment. *)
Definition previewing : Canvas.state * Canvas.pointer :=
  Canvas.move (Some "me") (Canvas.PointerEvent true 0 (Point 20 20 3))
    (Canvas.down (Some "me") "gm" (Canvas.PointerEvent true 0 (Point 10 10 2))
       (bobDrawing, Canvas.initPointerHandlers (Brush "#222" 4 "brush"))).

(** The next point of [bob]'s stroke, as the server broadcasts it. *)
Definition bobNext : op :=
  Op 3 "o3" "stroke:point" (pointData "bob" "gb" (Point 0 40 4)) false.

(** Two points of a user for whom no start was ever received. *)
Definition orphan1 : op :=
  Op 1 "o1" "stroke:point" (pointData "eve" "gx" (Point 1 1 0)) false.

Definition orphan2 : op :=
  Op 2 "o2" "stroke:point" (pointData "eve" "gx" (Point 9 9 1)) false.

(** [a] has started the stroke [g1] when a clear-all it requests alone
    finalizes. *)
Definition startedThenCleared : Server.state :=
  Server.finalizeClear "m1"
    (Server.run
       [Server.Connection "a";
        Server.ClientOp "a" "-" "o1" "stroke:start"
          (startData "a" "g1" (Point 0 0 0))]
       Server.initial).

(** The stroke is then ended, and a start arrives under the same group
    identity. *)
Definition endThenRestart : list Server.event :=
  [Server.ClientOp "a" "-" "o3" "stroke:end" (endData "a" "g1");
   Server.ClientOp "a" "-" "o4" "stroke:start"
     (startData "a" "g1" (Point 7 7 5))].

(** ** Further vocabulary *)

(** An operation without its tombstone flag: the part of it that is
    never written after the append. *)
Definition coreOf (o : op) : Z * string * string * payload :=
  (op_seq o, op_id o, op_kind o, op_data o).

(** A pending vote has at least one yes and has not reached the required
    count. *)
Definition voteInv (st : Server.state) : Prop :=
  Server.inProgress (Server.vote st) = true →
  (0 < size (Server.yes (Server.vote st)))%nat
  ∧ (Z.of_nat (size (Server.yes (Server.vote st)))
     < Server.totalAtStart (Server.vote st))%Z.


Definition isRedo (e : Server.event) : bool :=
  match e with
  | Server.ClientRedo _ => true
  | _ => false
  end.

(** The events that can tombstone: an undo, and the three that can
    finalize a vote. *)
Definition mayTombstone (e : Server.event) : bool :=
  match e with
  | Server.ClientUndo _ | Server.ClearAllRequest _ _
  | Server.ClearAllVote _ _ _ | Server.Disconnect _ _ => true
  | _ => false
  end.

(** The log [l'] holds the operations of the log [l] at their places,
    some of them set to the tombstone value [val] and nothing else
    changed (it may hold more operations after them). *)
Definition flips (val : bool) (l l' : list op) : Prop :=
  ∀ i o, l !! i = Some o →
         l' !! i = Some o ∨ l' !! i = Some (set_op_tombstone val o).

(** The stack entry refers to a group of the table. *)
Definition known (st : Server.state) (g : option string) : Prop :=
  is_Some (Server.groups st !! g).

(** ** What the pointer handlers send: [client/canvas.js], [client/main.js] *)

Module Handlers.

(** The call of [emitFn(kind, data)] in [down(e)], if it is reached. *)
Definition downEmit (myId : option string) (uuid : string)
    (e : Canvas.pointerEvent) (h : Canvas.pointer)
    : option (string * payload) :=
  if Canvas.isMouse e && negb (Canvas.button e =? 0)%Z then None
  else
    Some ("stroke:start",
          Payload myId (Some uuid) (Some (Canvas.pointerPos e))
            (Some (Canvas.ph_brush h)) None).

(** The call of [emitFn] in [move(e)]. *)
Definition moveEmit (myId : option string) (e : Canvas.pointerEvent)
    (h : Canvas.pointer) : option (string * payload) :=
  if negb (Canvas.drawing h) then None
  else
    Some ("stroke:point",
          Payload myId (Canvas.currentGroup h) (Some (Canvas.pointerPos e))
            None None).

(** The call of [emitFn] in [up(e)]. *)
Definition upEmit (myId : option string) (h : Canvas.pointer)
    : option (string * payload) :=
  if negb (Canvas.drawing h) then None
  else Some ("stroke:end", Payload myId (Canvas.currentGroup h) None None None).

(** [setMode(mode, color, width)]: a falsy [color] (absent or empty) or
    [width] (absent or zero) keeps the old value. *)
Definition setMode (newMode : string) (newColor : option string)
    (newWidth : option Z) (h : Canvas.pointer) : Canvas.pointer :=
  let b := Canvas.ph_brush h in
  Canvas.Pointer
    (Brush (match newColor with
            | Some c => if String.eqb c "" then color b else c
            | None => color b
            end)
           (match newWidth with
            | Some w => if (w =? 0)%Z then width b else w
            | None => width b
            end)
           newMode)
    (Canvas.drawing h) (Canvas.lastLocal h) (Canvas.currentGroup h).

End Handlers.

Module Main.

(** The [emitFn] that [main.js] hands to [initPointerHandlers]: the
    message [{ kind, data }] it sends as [client:op]. *)
Definition emitFn (kind : string) (data : payload) : string * payload :=
  let eraser :=
    match d_brush data with
    | Some b => String.eqb (mode b) "eraser"
    | None => false
    end in
  if eraser then
    let k1 := if String.eqb kind "stroke:start" then "erase:start" else kind in
    let k2 := if String.eqb k1 "stroke:point" then "erase:point" else k1 in
    let k3 := if String.eqb k2 "stroke:end" then "erase:end" else k2 in
    (k3, data)
  else (kind, data).

End Main.

(** The operations a replay applies: the ones that are not tombstoned. *)
Definition liveOps (l : list op) : list op :=
  filter (fun o => op_tombstone o = false) l.

(** The operations of one user. *)
Definition opsOf (u : string) (l : list op) : list op :=
  filter (fun o => userId (op_data o) = Some u) l.

(** The operations that can paint: live points. *)
Definition livePoints (l : list op) : list op :=
  filter (fun o => op_tombstone o = false ∧ endsWith ":point" (op_kind o) = true) l.

Module Outbox.

(** What goes out as [client:op] for an emission of a pointer handler. *)
Definition sent (m : option (string * payload)) : option (string * payload) :=
  match m with
  | Some (k, d) => Some (Main.emitFn k d)
  | None => None
  end.

End Outbox.

(** ** The cursor overlay of [client/canvas.js] *)

Module Cursors.

(** A cursor marker: the [left] and [top] of its style, in pixels (its
    other properties are the same for every marker). *)
Record elem := Elem { left : Z; top : Z }.

(** The maps [cursors] and [cursorElems]; the markers in the page are
    the values of [cursorElems]. *)
Record state := State {
  cursors : gmap string (Z * Z);
  cursorElems : gmap string elem
}.

(** [drawRemoteCursors()]: the first loop places a marker, new or old,
    for every cursor; the second removes the markers without a cursor. *)
Definition drawRemoteCursors (st : state) : state :=
  let placed :=
    map_fold (fun uid pos acc => <[uid := Elem pos.1 pos.2]> acc)
      (cursorElems st) (cursors st) in
  State (cursors st)
    (filter (fun kv => is_Some (cursors st !! kv.1)) placed).

(** [setRemoteCursor(userId, x, y)] *)
Definition setRemoteCursor (uid : string) (x y : Z) (st : state) : state :=
  drawRemoteCursors (State (<[uid := (x, y)]> (cursors st)) (cursorElems st)).

(** [removeRemoteCursor(userId)] *)
Definition removeRemoteCursor (uid : string) (st : state) : state :=
  drawRemoteCursors (State (delete uid (cursors st)) (cursorElems st)).

End Cursors.

(** The identity [crypto.randomUUID()] hands to the [client:op] handler
    for a group is not the empty string. *)
Definition mintsNonEmpty (e : Server.event) : Prop :=
  match e with
  | Server.ClientOp _ uuidG _ _ _ => uuidG ≠ ""
  | _ => True
  end.

(** The operation is of a stroke or an erase kind. *)
Definition isStrokeOp (c : Z * string * string * payload) : bool :=
  startsWith "stroke:" c.1.2 || startsWith "erase:" c.1.2.

(** * Properties *)

(** ** Strings *)

Lemma endsWith_inv suf s :
  endsWith suf s = true →
  (String.length suf ≤ String.length s)%nat
  ∧ substring (String.length s - String.length suf) (String.length suf) s = suf.
Proof.
  unfold endsWith. intros H. apply andb_true_iff in H as [H1 H2].
  apply Nat.leb_le in H1. apply String.eqb_eq in H2. done.
Qed.

Lemma endsWith_last suf s :
  endsWith suf s = true → (0 < String.length suf)%nat →
  get (String.length s - 1) s = get (String.length suf - 1) suf.
Proof.
  intros H Hpos. apply endsWith_inv in H as [Hle Hsub].
  rewrite <- Hsub at 2. rewrite substring_correct1 by lia.
  f_equal. lia.
Qed.

Lemma endsWith_point_not_start k :
  endsWith ":point" k = true → endsWith ":start" k = false.
Proof.
  intros H. destruct (endsWith ":start" k) eqn:E; [|done].
  apply endsWith_inv in H as [_ H], E as [_ E].
  simpl in H, E. rewrite H in E. discriminate.
Qed.

Lemma endsWith_point_not_end k :
  endsWith ":point" k = true → endsWith ":end" k = false.
Proof.
  intros H. destruct (endsWith ":end" k) eqn:E; [|done].
  apply endsWith_last in H; [|simpl; lia].
  apply endsWith_last in E; [|simpl; lia].
  rewrite H in E. discriminate.
Qed.

Lemma endsWith_point_not_clear k :
  endsWith ":point" k = true → String.eqb k "system:clear_all" = false.
Proof.
  intros H. destruct (String.eqb_spec k "system:clear_all") as [->|]; [|done].
  discriminate.
Qed.

(** ** The operation log *)

Section AddOp.
Context (uuid kind : string) (data : payload) (st : Server.state).

Lemma addOp_fst :
  fst (Server.addOp uuid kind data st)
  = Op (Server.seq st + 1) uuid kind data false.
Proof. unfold Server.addOp. by repeat case_match. Qed.

Lemma addOp_ops :
  Server.ops (snd (Server.addOp uuid kind data st))
  = Server.ops st ++ [Op (Server.seq st + 1) uuid kind data false].
Proof. unfold Server.addOp. by repeat case_match. Qed.

Lemma addOp_seq :
  Server.seq (snd (Server.addOp uuid kind data st)) = (Server.seq st + 1)%Z.
Proof. unfold Server.addOp. by repeat case_match. Qed.

Lemma addOp_users :
  Server.users (snd (Server.addOp uuid kind data st)) = Server.users st.
Proof. unfold Server.addOp. by repeat case_match. Qed.

Lemma addOp_vote :
  Server.vote (snd (Server.addOp uuid kind data st)) = Server.vote st.
Proof. unfold Server.addOp. by repeat case_match. Qed.
End AddOp.

Lemma addOp_clear_all uuid data st :
  Server.addOp uuid "system:clear_all" data st
  = (Op (Server.seq st + 1) uuid "system:clear_all" data false,
     Server.State (Server.seq st + 1)
       (Server.ops st ++ [Op (Server.seq st + 1) uuid "system:clear_all" data false])
       (Server.groups st) [] [] (Server.users st) (Server.vote st)).
Proof. reflexivity. Qed.

(** C10. An incoming operation of any [stroke:] or [erase:] kind whose
    payload has no (truthy) group identity is appended to the log with the
    freshly drawn identity attached, the rest of the payload unchanged. *)
Theorem C10_mint_for_any_stroke_or_erase_kind
    (uuidG uuidO kind : string) (data : payload) (st : Server.state) :
  startsWith "stroke:" kind || startsWith "erase:" kind = true →
  truthy (groupId data) = false →
  Server.ops (Server.on_client_op uuidG uuidO kind data st)
  = Server.ops st
    ++ [Op (Server.seq st + 1) uuidO kind (set_groupId (Some uuidG) data) false].
Proof.
  intros Hk Hg. unfold Server.on_client_op, Server.mint.
  rewrite Hk, Hg. simpl. apply addOp_ops.
Qed.

Lemma C10_mint_for_any_stroke_or_erase_kind_witness :
  Server.ops
    (Server.on_client_op "g-1" "o-1" "erase:point"
       (Payload (Some "a") None (Some (Point 1 2 3)) None None) Server.initial)
  = [Op 1 "o-1" "erase:point"
       (Payload (Some "a") (Some "g-1") (Some (Point 1 2 3)) None None) false].
Proof.
  apply (C10_mint_for_any_stroke_or_erase_kind "g-1" "o-1" "erase:point"
           (Payload (Some "a") None (Some (Point 1 2 3)) None None)
           Server.initial); reflexivity.
Defined.

(** A payload that carries a group identity keeps it, and other kinds are
    never touched. *)
Lemma mint_keeps uuidG kind data :
  truthy (groupId data) = true ∨
  startsWith "stroke:" kind || startsWith "erase:" kind = false →
  Server.mint uuidG kind data = data.
Proof.
  unfold Server.mint. intros [->| ->]; [|done]. by rewrite andb_false_r.
Qed.

(** ** Frame lemmas: what the undo/redo engine and the vote leave alone *)

Lemma setGroupTombstone_frame g val st :
  let st' := snd (Server.setGroupTombstone g val st) in
  Server.seq st' = Server.seq st ∧ Server.users st' = Server.users st
  ∧ Server.vote st' = Server.vote st
  ∧ Server.undoStack st' = Server.undoStack st
  ∧ Server.redoStack st' = Server.redoStack st.
Proof. unfold Server.setGroupTombstone. by case_match. Qed.

Lemma undoLoop_frame stack st :
  let st' := snd (Server.undoLoop stack st) in
  Server.seq st' = Server.seq st ∧ Server.users st' = Server.users st
  ∧ Server.vote st' = Server.vote st.
Proof.
  induction stack as [|g rest IH]; simpl; [done|].
  destruct (Server.groups st !! g) as [gr|] eqn:E; [|done].
  destruct (Server.g_tombstone gr); simpl; [done|].
  unfold Server.setGroupTombstone. by rewrite E.
Qed.

Lemma redoLoop_frame stack st :
  let st' := snd (Server.redoLoop stack st) in
  Server.seq st' = Server.seq st ∧ Server.users st' = Server.users st
  ∧ Server.vote st' = Server.vote st.
Proof.
  induction stack as [|g rest IH]; simpl; [done|].
  destruct (Server.groups st !! g) as [gr|] eqn:E; [|done].
  destruct (Server.g_tombstone gr); simpl; [|done].
  unfold Server.setGroupTombstone. by rewrite E.
Qed.

Lemma finalizeClear_unfold uuid st :
  Server.finalizeClear uuid st
  = Server.State (Server.seq st + 1)
      ((fun o => if String.eqb (op_id o) uuid then o
                 else set_op_tombstone true o)
         <$> (Server.ops st
              ++ [Op (Server.seq st + 1) uuid "system:clear_all"
                    (Payload None None None None (Some "vote")) false]))
      (Server.set_g_tombstone true <$> Server.groups st)
      [] [] (Server.users st)
      (Server.Vote false (Server.yes (Server.vote st))
         (Server.totalAtStart (Server.vote st))).
Proof. reflexivity. Qed.

Lemma checkQuorum_users uuid st :
  Server.users (Server.checkQuorum uuid st) = Server.users st.
Proof. unfold Server.checkQuorum. by case_match. Qed.

Lemma step_users st e :
  Server.users (Server.step st e)
  = match e with
    | Server.Connection sid =>
        <[sid := Server.User sid (Server.nextColor (size (Server.users st)))]>
          (Server.users st)
    | Server.Disconnect sid _ => delete sid (Server.users st)
    | _ => Server.users st
    end.
Proof.
  destruct e; simpl.
  - done.
  - apply addOp_users.
  - apply undoLoop_frame.
  - apply redoLoop_frame.
  - unfold Server.on_clear_all_request. case_match; [done|].
    by rewrite checkQuorum_users.
  - unfold Server.on_clear_all_vote. case_match; [done|].
    by rewrite checkQuorum_users.
  - unfold Server.on_disconnect. simpl. case_match; [|done].
    by rewrite checkQuorum_users.
Qed.

(** ** Presence: color assignment *)

(** The color handed out on connection is indexed by the number of users
    connected at that moment. *)
Lemma connection_color sid st :
  colorOf sid (Server.on_connection sid st)
  = Some (nth (size (Server.users st) mod length Server.COLORS)
            Server.COLORS "").
Proof. unfold colorOf. simpl. by rewrite lookup_insert_eq. Qed.

Lemma run_snoc es e st :
  Server.run (es ++ [e]) st = Server.step (Server.run es st) e.
Proof. unfold Server.run. by rewrite foldl_app. Qed.

Lemma joined_snoc es e :
  joined (es ++ [e])
  = joined es ++ match e with Server.Connection sid => [sid] | _ => [] end.
Proof. unfold joined. rewrite omap_app. by destruct e. Qed.

Lemma users_without_disconnect es :
  forallb (fun e => negb (isDisconnect e)) es = true →
  dom (Server.users (Server.run es Server.initial))
  = list_to_set (joined es).
Proof.
  induction es as [|e es IH] using rev_ind; intros Hno.
  - simpl. apply dom_empty_L.
  - rewrite forallb_app in Hno. apply andb_true_iff in Hno as [Hes He].
    simpl in He. rewrite andb_true_r in He.
    rewrite run_snoc, step_users, joined_snoc, list_to_set_app_L.
    destruct e; simpl in *; try discriminate;
      rewrite ?dom_insert_L, IH, ?union_empty_r_L by done; [|done..].
    apply (comm_L _).
Qed.

(** C9 (amended). When no user has disconnected before, the i-th user ever
    to join receives [COLORS[i mod COLORS.length]]. *)
Theorem C9_color_by_join_order_without_disconnect
    (es : list Server.event) (sid : string) :
  forallb (fun e => negb (isDisconnect e)) es = true →
  NoDup (joined es ++ [sid]) →
  colorOf sid (Server.run (es ++ [Server.Connection sid]) Server.initial)
  = Some (nth (length (joined es) mod length Server.COLORS) Server.COLORS "").
Proof.
  intros Hno Hnd. rewrite run_snoc. simpl. rewrite connection_color.
  apply NoDup_app in Hnd as (Hnd & _ & _).
  replace (size (Server.users (Server.run es Server.initial)))
    with (length (joined es)); [done|].
  rewrite <- size_dom, users_without_disconnect by done.
  by rewrite size_list_to_set.
Qed.

Lemma C9_color_by_join_order_without_disconnect_witness :
  colorOf "s2"
    (Server.run ([Server.Connection "s0"; Server.Connection "s1"]
                 ++ [Server.Connection "s2"]) Server.initial)
  = Some "#009688".
Proof.
  apply (C9_color_by_join_order_without_disconnect
           [Server.Connection "s0"; Server.Connection "s1"] "s2").
  - reflexivity.
  - apply (bool_decide_unpack _). vm_compute. exact I.
Defined.

(** C9, as stated, fails: after a disconnection the third user to join
    gets the palette entry of index 1, the one the second user holds, and
    not the entry of index 2. *)
Lemma C9_counterexample :
  let st := Server.run joinLeaveJoin Server.initial in
  joined joinLeaveJoin = ["s0"; "s1"; "s2"]
  ∧ colorOf "s2" st = Some "#3f51b5"
  ∧ colorOf "s1" st = Some "#3f51b5"
  ∧ colorOf "s2" st ≠ Some (nth (2 mod length Server.COLORS) Server.COLORS "").
Proof. vm_compute. repeat split; discriminate. Qed.

(** ** Clear-all and the stacks *)

(** C7 (amended). Finalizing a clear-all empties both stacks: the marker
    is appended through [addOp], whose [system:clear_all] branch truncates
    them. *)
Theorem C7_finalize_empties_stacks (uuid : string) (st : Server.state) :
  Server.undoStack (Server.finalizeClear uuid st) = []
  ∧ Server.redoStack (Server.finalizeClear uuid st) = [].
Proof. by rewrite finalizeClear_unfold. Qed.

(** C7, as stated, fails: a completed stroke is on the undo stack before
    the finalization and the stack is empty after it. *)
Lemma C7_counterexample :
  let st := Server.run oneStroke Server.initial in
  Server.undoStack st = [Some "g1"]
  ∧ Server.undoStack (Server.finalizeClear "m1" st) = []
  ∧ Server.undoStack (Server.finalizeClear "m1" st) ≠ Server.undoStack st.
Proof. vm_compute. repeat split; discriminate. Qed.

(** ** Tombstoning the members of a group *)

Lemma set_op_tombstone_id o : set_op_tombstone (op_tombstone o) o = o.
Proof. by destruct o. Qed.

Lemma op_seq_set val o : op_seq (set_op_tombstone val o) = op_seq o.
Proof. done. Qed.

Lemma markFirst_seqs val s l : seqsOf (Server.markFirst val s l) = seqsOf l.
Proof.
  unfold seqsOf. induction l as [|o r IH]; [done|].
  cbn [Server.markFirst]. case_match; rewrite !fmap_cons; [done|].
  by rewrite IH.
Qed.

Lemma markAll_seqs val ss l : seqsOf (Server.markAll val ss l) = seqsOf l.
Proof.
  unfold Server.markAll. revert l.
  induction ss as [|s ss IH]; intros l; simpl; [done|].
  by rewrite IH, markFirst_seqs.
Qed.

(** With distinct sequence numbers, the operation [find] returns is the
    only one carrying the number. *)
Lemma markFirst_map val s l :
  NoDup (seqsOf l) →
  Server.markFirst val s l
  = (fun o => if (op_seq o =? s)%Z then set_op_tombstone val o else o) <$> l.
Proof.
  unfold seqsOf. induction l as [|o r IH]; [done|].
  rewrite !fmap_cons. intros [Hnotin Hnd]%NoDup_cons.
  cbn [Server.markFirst].
  destruct (Z.eqb_spec (op_seq o) s) as [Heq|Hne].
  - f_equal. subst s. clear IH Hnd.
    induction r as [|o' r IH]; [done|].
    rewrite fmap_cons in Hnotin.
    apply not_elem_of_cons in Hnotin as [Hne Hnotin].
    rewrite fmap_cons, <- IH by done.
    destruct (Z.eqb_spec (op_seq o') (op_seq o)); [congruence|done].
  - by rewrite IH.
Qed.

Lemma markAll_map val ss l :
  NoDup (seqsOf l) →
  Server.markAll val ss l
  = (fun o => if bool_decide (op_seq o ∈ ss) then set_op_tombstone val o else o)
      <$> l.
Proof.
  unfold Server.markAll. revert l.
  induction ss as [|s ss IH]; intros l Hnd; cbn [foldl].
  - transitivity (id <$> l); [by rewrite list_fmap_id|].
    apply list_fmap_ext. intros ? o _.
    rewrite bool_decide_eq_false_2; [done|]. apply not_elem_of_nil.
  - rewrite IH by (by rewrite markFirst_seqs).
    rewrite markFirst_map by done. rewrite <- list_fmap_compose.
    apply list_fmap_ext. intros ? o _. cbn [compose].
    destruct (Z.eqb_spec (op_seq o) s) as [Heq|Hne]; rewrite ?op_seq_set.
    + subst s. rewrite (bool_decide_eq_true_2 (_ ∈ _ :: ss)) by left.
      by case_bool_decide.
    + destruct (decide (op_seq o ∈ ss)) as [Hin|Hnotin].
      * rewrite !bool_decide_eq_true_2; [done|by right|done].
      * rewrite !bool_decide_eq_false_2; [done| |done].
        by intros [?|?]%elem_of_cons.
Qed.

(** Tombstoning a whole group and restoring it gives the log back when
    the members were live. *)
Lemma markAll_round_trip ss l :
  NoDup (seqsOf l) →
  (∀ o, o ∈ l → op_seq o ∈ ss → op_tombstone o = false) →
  Server.markAll false ss (Server.markAll true ss l) = l.
Proof.
  intros Hnd Hlive.
  rewrite (markAll_map false) by (by rewrite markAll_seqs).
  rewrite markAll_map by done. rewrite <- list_fmap_compose.
  transitivity (id <$> l); [|by rewrite list_fmap_id].
  apply list_fmap_ext.
  intros ? o Hin%list_elem_of_lookup_2. cbn [compose].
  destruct (decide (op_seq o ∈ ss)) as [Hs|Hs].
  - rewrite (bool_decide_eq_true_2 _ Hs), op_seq_set.
    rewrite (bool_decide_eq_true_2 _ Hs).
    specialize (Hlive o Hin Hs). destruct o; simpl in *. by subst.
  - rewrite (bool_decide_eq_false_2 _ Hs). by rewrite (bool_decide_eq_false_2 _ Hs).
Qed.

(** ** The log invariant and claim C2 *)

Lemma sorted_NoDup (l : list Z) : StronglySorted Z.lt l → NoDup l.
Proof.
  induction 1 as [|x l Hs IH Hall]; constructor; [|done].
  intros Hin. rewrite Forall_forall in Hall. specialize (Hall x Hin). lia.
Qed.

Lemma sorted_snoc (l : list Z) (n : Z) :
  StronglySorted Z.lt l → Forall (fun s => (s < n)%Z) l →
  StronglySorted Z.lt (l ++ [n]).
Proof.
  induction 1 as [|x l Hs IH Hall]; intros Hb; simpl.
  - repeat constructor.
  - apply Forall_cons in Hb as [Hx Hb]. constructor; [by apply IH|].
    apply Forall_app. split; [done|]. by repeat constructor.
Qed.

Lemma logInv_initial : logInv Server.initial.
Proof. split; simpl; constructor. Qed.

Lemma logInv_NoDup st : logInv st → NoDup (seqsOf (Server.ops st)).
Proof. intros [Hs _]. by apply sorted_NoDup. Qed.

Lemma logInv_addOp uuid kind data st :
  logInv st → logInv (snd (Server.addOp uuid kind data st)).
Proof.
  intros [Hs Hb]. split; rewrite addOp_ops, ?addOp_seq; unfold seqsOf in *;
    rewrite fmap_app; simpl.
  - apply sorted_snoc; [done|]. eapply Forall_impl; [exact Hb|].
    simpl. intros; lia.
  - apply Forall_app. split.
    + eapply Forall_impl; [exact Hb|]. simpl. intros; lia.
    + repeat constructor. lia.
Qed.

Lemma logInv_appendAll calls st : logInv st → logInv (appendAll calls st).
Proof.
  unfold appendAll. revert st.
  induction calls as [|c calls IH]; intros st Hst; simpl; [done|].
  by apply IH, logInv_addOp.
Qed.

(** C2. Whatever the sequence of appends, the sequence numbers in the log
    are strictly increasing in append order, hence pairwise distinct. *)
Theorem C2_sequence_numbers_strictly_increasing
    (calls : list (string * string * payload)) :
  StronglySorted Z.lt (seqsOf (Server.ops (appendAll calls Server.initial)))
  ∧ NoDup (seqsOf (Server.ops (appendAll calls Server.initial))).
Proof.
  pose proof (logInv_appendAll calls _ logInv_initial) as H.
  split; [apply H|by apply logInv_NoDup].
Qed.

(** The numbers handed out are exactly 1, 2, ..., one per append. *)
Lemma appendAll_seqs calls st :
  seqsOf (Server.ops (appendAll calls st))
  = seqsOf (Server.ops st)
    ++ ((fun i => (Server.seq st + Z.of_nat i)%Z) <$> seq 1 (length calls))
  ∧ Server.seq (appendAll calls st) = (Server.seq st + Z.of_nat (length calls))%Z.
Proof.
  unfold appendAll. revert st.
  induction calls as [|c calls IH]; intros st; simpl.
  - split; [by rewrite app_nil_r|lia].
  - destruct (IH (snd (Server.addOp c.1.1 c.1.2 c.2 st))) as [IH1 IH2].
    rewrite IH1, IH2, addOp_ops, addOp_seq. split; [|rewrite Nat2Z.inj_succ; lia].
    unfold seqsOf. rewrite fmap_app, <- app_assoc. f_equal.
    cbn [length seq]. rewrite !fmap_cons, fmap_nil. cbn [app op_seq].
    f_equal.
    rewrite <- (fmap_S_seq 1), <- list_fmap_compose.
    apply list_fmap_ext. intros; simpl; lia.
Qed.

(** ** The invariant of the reachable server states *)

Lemma serverInv_ext st st' :
  Server.seq st' = Server.seq st → Server.ops st' = Server.ops st →
  Server.groups st' = Server.groups st →
  serverInv st → serverInv st'.
Proof.
  intros Hs Ho Hg [[H1 H2] H3 H4 H5].
  split; [split|..]; rewrite ?Hs, ?Ho, ?Hg; done.
Qed.

Lemma serverInv_initial : serverInv Server.initial.
Proof.
  split; [apply logInv_initial|..]; simpl; intros *;
    rewrite ?lookup_empty; done.
Qed.

Lemma logInv_bound st o :
  logInv st → o ∈ Server.ops st → (op_seq o <= Server.seq st)%Z.
Proof.
  intros [_ Hb] Hin. rewrite Forall_forall in Hb. apply Hb.
  unfold seqsOf. apply list_elem_of_fmap. eauto.
Qed.

Lemma addOp_groups uuid kind data st :
  let st' := snd (Server.addOp uuid kind data st) in
  let n := (Server.seq st + 1)%Z in
  (∀ g, g ≠ groupId data → Server.groups st' !! g = Server.groups st !! g)
  ∧ (Server.groups st' !! groupId data = Server.groups st !! groupId data
     ∨ Server.groups st' !! groupId data
       = Some (Server.Group kind (userId data) [n] false)
     ∨ ∃ gr, Server.groups st !! groupId data = Some gr
             ∧ Server.groups st' !! groupId data
               = Some (Server.push_g_seq n gr)).
Proof.
  unfold Server.addOp.
  repeat case_match; simpl;
    (split; [intros g' Hg'; by rewrite ?lookup_insert_ne|]);
    rewrite ?lookup_insert_eq; eauto.
Qed.

(** How a group of the new state relates to the old state: it is an old
    group, a group just created around the new operation, or an old group
    extended by the new operation. *)
Lemma addOp_group_cases uuid kind data st g gr' :
  Server.groups (snd (Server.addOp uuid kind data st)) !! g = Some gr' →
  Server.groups st !! g = Some gr'
  ∨ (g = groupId data ∧ Server.g_seqs gr' = [(Server.seq st + 1)%Z]
     ∧ Server.g_tombstone gr' = false)
  ∨ (g = groupId data ∧ ∃ gr, Server.groups st !! g = Some gr
     ∧ Server.g_seqs gr' = Server.g_seqs gr ++ [(Server.seq st + 1)%Z]
     ∧ Server.g_tombstone gr' = Server.g_tombstone gr).
Proof.
  destruct (addOp_groups uuid kind data st) as [Hother Hsame].
  intros Hlk. destruct (decide (g = groupId data)) as [->|Hne].
  - destruct Hsame as [Hsame|[Hsame|(gr & Hgr & Hsame)]];
      rewrite Hsame in Hlk.
    + by left.
    + right; left. by simplify_eq.
    + right; right. simplify_eq. eauto.
  - left. by rewrite <- Hother.
Qed.

Lemma serverInv_addOp uuid kind data st :
  serverInv st → serverInv (snd (Server.addOp uuid kind data st)).
Proof.
  intros [Hlog Hmem Hdisj Hlive].
  assert (Hfresh : ∀ g gr, Server.groups st !! g = Some gr →
            (Server.seq st + 1)%Z ∉ Server.g_seqs gr).
  { intros g gr Hg Hin. specialize (Hmem _ _ _ Hg Hin). lia. }
  split.
  - by apply logInv_addOp.
  - intros g gr' s Hg Hs. rewrite addOp_seq.
    apply addOp_group_cases in Hg
      as [Hg|[(_ & Hseqs & _)|(_ & gr & Hg & Hseqs & _)]].
    + specialize (Hmem _ _ _ Hg Hs). lia.
    + rewrite Hseqs in Hs. apply list_elem_of_singleton in Hs. lia.
    + rewrite Hseqs in Hs. apply elem_of_app in Hs as [Hs|Hs].
      * specialize (Hmem _ _ _ Hg Hs). lia.
      * apply list_elem_of_singleton in Hs. lia.
  - intros g1 g2 gr1 gr2 s Hne Hg1 Hg2 Hs1 Hs2.
    apply addOp_group_cases in Hg1
      as [Hg1|[(E1 & Hq1 & _)|(E1 & gr1' & Hg1 & Hq1 & _)]];
    apply addOp_group_cases in Hg2
      as [Hg2|[(E2 & Hq2 & _)|(E2 & gr2' & Hg2 & Hq2 & _)]];
      try congruence;
      rewrite ?Hq1 in Hs1; rewrite ?Hq2 in Hs2;
      rewrite ?elem_of_app, ?list_elem_of_singleton in Hs1;
      rewrite ?elem_of_app, ?list_elem_of_singleton in Hs2.
    + exact (Hdisj _ _ _ _ _ Hne Hg1 Hg2 Hs1 Hs2).
    + subst s. exact (Hfresh _ _ Hg1 Hs1).
    + destruct Hs2 as [Hs2| ->];
        [exact (Hdisj _ _ _ _ _ Hne Hg1 Hg2 Hs1 Hs2)|exact (Hfresh _ _ Hg1 Hs1)].
    + subst s. exact (Hfresh _ _ Hg2 Hs2).
    + destruct Hs1 as [Hs1| ->];
        [exact (Hdisj _ _ _ _ _ Hne Hg1 Hg2 Hs1 Hs2)|exact (Hfresh _ _ Hg2 Hs2)].
  - intros g gr' o Hg Htomb Ho Hs.
    rewrite addOp_ops in Ho. apply elem_of_app in Ho as [Ho|Ho].
    + pose proof (logInv_bound _ _ Hlog Ho) as Hb.
      apply addOp_group_cases in Hg
        as [Hg|[(_ & Hq & _)|(_ & gr & Hg & Hq & Ht)]].
      * by eapply Hlive.
      * rewrite Hq in Hs. apply list_elem_of_singleton in Hs. lia.
      * rewrite Hq in Hs. apply elem_of_app in Hs as [Hs|Hs].
        -- eapply Hlive; [exact Hg|congruence|done..].
        -- apply list_elem_of_singleton in Hs. lia.
    + apply list_elem_of_singleton in Ho. by subst o.
Qed.

Lemma serverInv_setGroupTombstone g val st :
  serverInv st → serverInv (snd (Server.setGroupTombstone g val st)).
Proof.
  intros Hinv. unfold Server.setGroupTombstone.
  destruct (Server.groups st !! g) as [gr|] eqn:Eg; [|done]. simpl.
  destruct Hinv as [Hlog Hmem Hdisj Hlive].
  assert (Hcases : ∀ g' gr',
    <[g := Server.set_g_tombstone val gr]> (Server.groups st) !! g' = Some gr' →
    ∃ gr0, Server.groups st !! g' = Some gr0
           ∧ Server.g_seqs gr' = Server.g_seqs gr0
           ∧ (g' ≠ g → gr' = gr0)
           ∧ (g' = g → gr0 = gr ∧ Server.g_tombstone gr' = val)).
  { intros g' gr'. rewrite lookup_insert. case_decide as Hd.
    - subst g'. intros [= <-]. exists gr. done.
    - intros Hlk. exists gr'. done. }
  pose proof (logInv_NoDup _ Hlog) as Hnd.
  split; simpl.
  - destruct Hlog as [Hs Hb]. split; simpl; by rewrite markAll_seqs.
  - intros g' gr' s (gr0 & Hg0 & Hq & _)%Hcases Hs. rewrite Hq in Hs. eauto.
  - intros g1 g2 gr1 gr2 s Hne (gr1' & Hg1 & Hq1 & _)%Hcases
      (gr2' & Hg2 & Hq2 & _)%Hcases. rewrite Hq1, Hq2. eauto.
  - intros g' gr' o (gr0 & Hg0 & Hq & Hne & Heq)%Hcases Htomb Ho Hs.
    rewrite markAll_map in Ho by done.
    apply list_elem_of_fmap in Ho as (o0 & -> & Ho0).
    assert (Hs0 : op_seq o0 ∈ Server.g_seqs gr0).
    { rewrite <- Hq. by case_bool_decide. }
    destruct (decide (g' = g)) as [->|Hg'].
    + destruct (Heq eq_refl) as [-> Hval].
      rewrite bool_decide_eq_true_2 by done. simpl. congruence.
    + rewrite (Hne Hg') in Htomb.
      case_bool_decide as Hin.
      * exfalso. by eapply (Hdisj g' g gr0 gr).
      * by eapply Hlive.
Qed.

Lemma serverInv_finalizeClear uuid st :
  serverInv st → serverInv (Server.finalizeClear uuid st).
Proof.
  intros [Hlog Hmem Hdisj Hlive]. rewrite finalizeClear_unfold.
  assert (Hseqs : ∀ l,
    seqsOf ((fun o => if String.eqb (op_id o) uuid then o
                      else set_op_tombstone true o) <$> l) = seqsOf l).
  { intros l. unfold seqsOf. rewrite <- list_fmap_compose.
    apply list_fmap_ext. intros ? o _. simpl. by case_match. }
  split; simpl.
  - pose proof (logInv_addOp uuid "system:clear_all"
                  (Payload None None None None (Some "vote")) st Hlog) as [Hs Hb].
    rewrite addOp_clear_all in Hs, Hb. simpl in Hs, Hb.
    split; simpl; by rewrite Hseqs.
  - intros g gr s. rewrite lookup_fmap.
    destruct (Server.groups st !! g) as [gr0|] eqn:E; [|done].
    intros [= <-] Hs. simpl in Hs. specialize (Hmem _ _ _ E Hs). lia.
  - intros g1 g2 gr1 gr2 s Hne. rewrite !lookup_fmap.
    destruct (Server.groups st !! g1) as [gr1'|] eqn:E1; [|done].
    destruct (Server.groups st !! g2) as [gr2'|] eqn:E2; [|done].
    intros [= <-] [= <-]. simpl. eauto.
  - intros g gr o. rewrite lookup_fmap.
    destruct (Server.groups st !! g) as [gr0|]; [|done].
    by intros [= <-].
Qed.

Lemma serverInv_undoLoop stack st :
  serverInv st → serverInv (snd (Server.undoLoop stack st)).
Proof.
  intros Hinv. induction stack as [|g rest IH]; simpl.
  - by apply (serverInv_ext st).
  - destruct (Server.groups st !! g) as [gr|]; [|done].
    destruct (Server.g_tombstone gr); simpl; [done|].
    apply (serverInv_ext (snd (Server.setGroupTombstone g true st)));
      [done..|by apply serverInv_setGroupTombstone].
Qed.

Lemma serverInv_redoLoop stack st :
  serverInv st → serverInv (snd (Server.redoLoop stack st)).
Proof.
  intros Hinv. induction stack as [|g rest IH]; simpl.
  - by apply (serverInv_ext st).
  - destruct (Server.groups st !! g) as [gr|]; [|done].
    destruct (Server.g_tombstone gr); simpl; [|done].
    apply (serverInv_ext (snd (Server.setGroupTombstone g false st)));
      [done..|by apply serverInv_setGroupTombstone].
Qed.

Lemma serverInv_checkQuorum uuid st :
  serverInv st → serverInv (Server.checkQuorum uuid st).
Proof.
  intros Hinv. unfold Server.checkQuorum. case_match; [|done].
  by apply serverInv_finalizeClear.
Qed.

Lemma serverInv_step st e : serverInv st → serverInv (Server.step st e).
Proof.
  intros Hinv. destruct e; simpl.
  - by apply (serverInv_ext st).
  - by apply serverInv_addOp.
  - by apply serverInv_undoLoop.
  - by apply serverInv_redoLoop.
  - unfold Server.on_clear_all_request. case_match; [done|].
    apply serverInv_checkQuorum. by apply (serverInv_ext st).
  - unfold Server.on_clear_all_vote. case_match; [done|].
    apply serverInv_checkQuorum. by apply (serverInv_ext st).
  - unfold Server.on_disconnect. simpl. case_match.
    + apply serverInv_checkQuorum. by apply (serverInv_ext st).
    + by apply (serverInv_ext st).
Qed.

Lemma serverInv_run es st : serverInv st → serverInv (Server.run es st).
Proof.
  unfold Server.run. revert st.
  induction es as [|e es IH]; intros st Hinv; simpl; [done|].
  by apply IH, serverInv_step.
Qed.

(** At every reachable state the sequence numbers of the whole log are
    strictly increasing, whatever the server was asked to do in between. *)
Lemma reachable_seqs_increasing es :
  StronglySorted Z.lt (seqsOf (Server.ops (Server.run es Server.initial))).
Proof. apply (serverInv_run es _ serverInv_initial). Qed.

(** At every reachable state a live group has only live members. *)
Lemma reachable_live_group_live_members es g gr o :
  let st := Server.run es Server.initial in
  Server.groups st !! g = Some gr → Server.g_tombstone gr = false →
  o ∈ Server.ops st → op_seq o ∈ Server.g_seqs gr →
  op_tombstone o = false.
Proof. apply (serverInv_run es _ serverInv_initial). Qed.

(** ** Undo and redo *)

Lemma undoLoop_success stack st g st1 :
  Server.undoLoop stack st = (Some g, st1) →
  ∃ gr skipped rest,
    stack = skipped ++ g :: rest
    ∧ Server.groups st !! g = Some gr
    ∧ Server.g_tombstone gr = false
    ∧ st1 = Server.State (Server.seq st)
              (Server.markAll true (Server.g_seqs gr) (Server.ops st))
              (<[g := Server.set_g_tombstone true gr]> (Server.groups st))
              rest (g :: Server.redoStack st) (Server.users st)
              (Server.vote st).
Proof.
  induction stack as [|g' rest IH]; simpl; [done|].
  destruct (Server.groups st !! g') as [gr|] eqn:Eg.
  - destruct (Server.g_tombstone gr) eqn:Et; simpl.
    + intros (gr0 & skipped & rest0 & -> & H)%IH.
      exists gr0, (g' :: skipped), rest0. done.
    + unfold Server.setGroupTombstone. rewrite Eg. simpl.
      intros [= <- <-]. exists gr, [], rest. done.
  - intros (gr0 & skipped & rest0 & -> & H)%IH.
    exists gr0, (g' :: skipped), rest0. done.
Qed.

(** Undo followed by redo, at any state that satisfies the invariant. *)
Lemma undo_redo_restores st g st1 :
  serverInv st →
  Server.performUndo st = (Some g, st1) →
  Server.performRedo st1
  = (Some g, Server.State (Server.seq st) (Server.ops st) (Server.groups st)
               (g :: Server.undoStack st1) (Server.redoStack st)
               (Server.users st) (Server.vote st)).
Proof.
  intros Hinv (gr & skipped & rest & Hstack & Hg & Ht & ->)%undoLoop_success.
  unfold Server.performRedo. simpl. rewrite lookup_insert_eq. simpl.
  unfold Server.setGroupTombstone. simpl. rewrite lookup_insert_eq. simpl.
  unfold Server.set_stacks. simpl. do 2 f_equal.
  - apply markAll_round_trip.
    + apply logInv_NoDup, Hinv.
    + intros o Ho Hs. by eapply (inv_live _ Hinv).
  - rewrite insert_insert_eq. apply insert_id.
    rewrite Hg. f_equal. destruct gr; simpl in *. by subst.
Qed.

(** C4. At every reachable state where undo succeeds on a group [g], the
    group was live and is tombstoned and moved to the redo stack by the
    undo; the redo that follows succeeds on [g], makes it live again, puts it
    back on top of the undo stack, gives the redo stack back, and leaves
    the log, hence what a replay of it renders, as before the undo. *)
Theorem C4_undo_then_redo_restores
    (es : list Server.event) (g : option string) (st1 : Server.state) :
  let st := Server.run es Server.initial in
  Server.performUndo st = (Some g, st1) →
  Server.g_tombstone <$> Server.groups st !! g = Some false
  ∧ Server.g_tombstone <$> Server.groups st1 !! g = Some true
  ∧ Server.redoStack st1 = g :: Server.redoStack st
  ∧ ∃ st2,
      Server.performRedo st1 = (Some g, st2)
      ∧ Server.g_tombstone <$> Server.groups st2 !! g = Some false
      ∧ Server.undoStack st2 = g :: Server.undoStack st1
      ∧ Server.redoStack st2 = Server.redoStack st
      ∧ Server.groups st2 = Server.groups st
      ∧ Server.ops st2 = Server.ops st
      ∧ render (Server.ops st2) = render (Server.ops st).
Proof.
  intros st Hundo.
  pose proof (serverInv_run es _ serverInv_initial) as Hinv. fold st in Hinv.
  pose proof (undo_redo_restores _ _ _ Hinv Hundo) as Hredo.
  apply undoLoop_success in Hundo
    as (gr & skipped & rest & Hstack & Hg & Ht & ->).
  simpl in *. rewrite Hg, lookup_insert_eq. simpl. rewrite Ht.
  repeat split. eexists. split; [exact Hredo|]. simpl.
  rewrite Hg. simpl. rewrite Ht. done.
Qed.

Lemma C4_undo_then_redo_restores_witness :
  let st := Server.run oneStroke Server.initial in
  let st1 := snd (Server.performUndo st) in
  Server.g_tombstone <$> Server.groups st !! Some "g1" = Some false
  ∧ Server.g_tombstone <$> Server.groups st1 !! Some "g1" = Some true
  ∧ Server.redoStack st1 = Some "g1" :: Server.redoStack st
  ∧ ∃ st2,
      Server.performRedo st1 = (Some (Some "g1"), st2)
      ∧ Server.g_tombstone <$> Server.groups st2 !! Some "g1" = Some false
      ∧ Server.undoStack st2 = Some "g1" :: Server.undoStack st1
      ∧ Server.redoStack st2 = Server.redoStack st
      ∧ Server.groups st2 = Server.groups st
      ∧ Server.ops st2 = Server.ops st
      ∧ render (Server.ops st2) = render (Server.ops st).
Proof.
  apply (C4_undo_then_redo_restores oneStroke (Some "g1")
           (snd (Server.performUndo (Server.run oneStroke Server.initial)))).
  vm_compute. reflexivity.
Defined.

(** ** After a clear-all *)

Lemma undoLoop_dead stack st :
  Forall (fun g => ∀ gr, Server.groups st !! g = Some gr →
                         Server.g_tombstone gr = true) stack →
  Server.undoLoop stack st
  = (None, Server.set_stacks [] (Server.redoStack st) st).
Proof.
  induction 1 as [|g rest Hg Hrest IH]; simpl; [done|].
  destruct (Server.groups st !! g) as [gr|] eqn:Eg; [|done].
  by rewrite (Hg _ eq_refl).
Qed.

Lemma undoVacuous_finalizeClear uuid st :
  undoVacuous (Server.finalizeClear uuid st).
Proof. rewrite finalizeClear_unfold. by split. Qed.

Lemma undoVacuous_checkQuorum uuid st :
  undoVacuous st → undoVacuous (Server.checkQuorum uuid st).
Proof.
  intros H. unfold Server.checkQuorum. case_match; [|done].
  apply undoVacuous_finalizeClear.
Qed.

Lemma undoVacuous_addOp uuid kind data st :
  (endsWith ":start" kind = true → groupId data ∉ Server.undoStack st) →
  (endsWith ":end" kind = true →
   ∀ gr, Server.groups st !! groupId data = Some gr →
         Server.g_tombstone gr = true) →
  undoVacuous st → undoVacuous (snd (Server.addOp uuid kind data st)).
Proof.
  intros Hstart Hend [Hdead Hredo]. unfold Server.addOp.
  rewrite Forall_forall in Hdead.
  destruct (endsWith ":start" kind) eqn:Ks; simpl.
  { split; [|done]. apply Forall_forall. intros g Hg gr. simpl.
    rewrite lookup_insert_ne; [by apply Hdead|].
    intros <-. by apply Hstart. }
  destruct (endsWith ":point" kind) eqn:Kp; simpl.
  { destruct (Server.groups st !! groupId data) as [gr0|] eqn:Eg;
      (split; [|done]); apply Forall_forall; intros g Hg gr; simpl;
      [|by apply Hdead].
    rewrite lookup_insert. case_decide as Hd; [|by apply Hdead].
    subst g. intros [= <-]. simpl. by eapply Hdead. }
  destruct (endsWith ":end" kind) eqn:Ke; simpl.
  { destruct (Server.groups st !! groupId data) as [gr0|] eqn:Eg;
      (split; [|done]); apply Forall_forall; intros g Hg gr; simpl;
      [|by apply Hdead].
    rewrite lookup_insert. case_decide as Hd.
    - subst g. intros [= <-]. simpl. by apply Hend.
    - apply elem_of_cons in Hg as [?|Hg]; [done|]. by apply Hdead. }
  case_match; simpl; (split; [|done]); [by constructor|].
  apply Forall_forall. intros g Hg gr. by apply Hdead.
Qed.

Lemma undoVacuous_step st e :
  completesStroke st e = false → restartsStacked st e = false →
  undoVacuous st → undoVacuous (Server.step st e).
Proof.
  intros Hc Hr Hv. destruct e; simpl in *.
  - done.
  - apply undoVacuous_addOp; [| |done].
    + intros Hk. rewrite Hk in Hr. simpl in Hr.
      by apply bool_decide_eq_false in Hr.
    + intros Hk gr Hg. rewrite Hk, Hg in Hc. simpl in Hc.
      by apply negb_false_iff in Hc.
  - unfold Server.on_client_undo, Server.performUndo.
    rewrite undoLoop_dead by apply Hv. split; [by constructor|apply Hv].
  - unfold Server.on_client_redo, Server.performRedo.
    destruct Hv as [Hdead Hredo]. rewrite Hredo. simpl. by split.
  - unfold Server.on_clear_all_request. case_match; [done|].
    by apply undoVacuous_checkQuorum.
  - unfold Server.on_clear_all_vote. case_match; [done|].
    by apply undoVacuous_checkQuorum.
  - unfold Server.on_disconnect. simpl. case_match; [|done].
    by apply undoVacuous_checkQuorum.
Qed.

Lemma undoVacuous_run es st :
  noStrokeCompleted st es = true →
  undoVacuous st → undoVacuous (Server.run es st).
Proof.
  unfold Server.run. revert st.
  induction es as [|e es IH]; intros st Hes Hv; simpl; [done|].
  simpl in Hes. apply andb_true_iff in Hes as [Hes Hrest].
  apply andb_true_iff in Hes as [Hc Hr].
  apply negb_true_iff in Hc, Hr.
  apply IH; [done|]. by apply undoVacuous_step.
Qed.

(** C6 (amended). When a clear-all finalizes with a marker identity no
    logged operation carries, every operation that was in the log is
    tombstoned and otherwise unchanged, the marker is appended
    untombstoned, the groups are the same ones and all tombstoned, an undo
    reports nothing and changes nothing, and undo keeps reporting nothing
    whatever the server receives, until a new stroke is completed,
    provided no stroke is started meanwhile under a group identity the
    undo stack still holds. *)
Theorem C6_clear_all_tombstones_everything_but_marker
    (uuid : string) (st : Server.state) :
  Forall (fun o => op_id o ≠ uuid) (Server.ops st) →
  let st' := Server.finalizeClear uuid st in
  Server.ops st'
  = (set_op_tombstone true <$> Server.ops st)
    ++ [clearMarker (Server.seq st + 1) uuid]
  ∧ (∀ g gr, Server.groups st' !! g = Some gr → Server.g_tombstone gr = true)
  ∧ dom (Server.groups st') = dom (Server.groups st)
  ∧ Server.performUndo st' = (None, st')
  ∧ ∀ es, noStrokeCompleted st' es = true →
          fst (Server.performUndo (Server.run es st')) = None.
Proof.
  intros Hfresh st'. pose proof (undoVacuous_finalizeClear uuid st) as Hv.
  fold st' in Hv. subst st'. rewrite finalizeClear_unfold in *.
  simpl. repeat split.
  - rewrite fmap_app. simpl. rewrite String.eqb_refl. f_equal.
    apply list_fmap_ext. intros i o Ho%list_elem_of_lookup_2.
    rewrite Forall_forall in Hfresh. specialize (Hfresh o Ho).
    by apply String.eqb_neq in Hfresh as ->.
  - intros g gr. rewrite lookup_fmap.
    destruct (Server.groups st !! g); [|done]. by intros [= <-].
  - apply dom_fmap_L.
  - intros es Hes. unfold Server.performUndo.
    rewrite undoLoop_dead; [done|]. by apply undoVacuous_run.
Qed.

Lemma C6_clear_all_tombstones_everything_but_marker_witness :
  let st := Server.run oneStroke Server.initial in
  let st' := Server.finalizeClear "m1" st in
  Server.ops st'
  = (set_op_tombstone true <$> Server.ops st)
    ++ [clearMarker (Server.seq st + 1) "m1"]
  ∧ (∀ g gr, Server.groups st' !! g = Some gr → Server.g_tombstone gr = true)
  ∧ dom (Server.groups st') = dom (Server.groups st)
  ∧ Server.performUndo st' = (None, st')
  ∧ ∀ es, noStrokeCompleted st' es = true →
          fst (Server.performUndo (Server.run es st')) = None.
Proof.
  apply (C6_clear_all_tombstones_everything_but_marker "m1"
           (Server.run oneStroke Server.initial)).
  apply (bool_decide_unpack _). vm_compute. exact I.
Defined.

(** C6, as stated, fails: the stacks hold group identities that are
    looked up again at each pop.  After the clear-all, the end of the
    stroke that was in progress puts its tombstoned group on the undo
    stack; a start under the same identity then replaces the group by a
    live one.  No stroke has been completed, and undo succeeds. *)
Lemma C6_counterexample :
  let st := Server.run endThenRestart startedThenCleared in
  noLiveEnd startedThenCleared endThenRestart = true
  ∧ op_tombstone <$> Server.ops startedThenCleared = [true; false]
  ∧ Server.performUndo startedThenCleared = (None, startedThenCleared)
  ∧ Server.undoStack st = [Some "g1"]
  ∧ Server.groups st !! Some "g1"
    = Some (Server.Group "stroke:start" (Some "a") [4]%Z false)
  ∧ fst (Server.performUndo st) = Some (Some "g1")
  ∧ fst (Server.performUndo st) ≠ None.
Proof. vm_compute. repeat split; discriminate. Qed.

(** Once a new stroke is completed, undo has something to undo again. *)
Example undo_after_new_stroke :
  let st' := Server.finalizeClear "m1" (Server.run oneStroke Server.initial) in
  let es :=
    [Server.ClientOp "a" "-" "o5" "stroke:start" (startData "a" "g2" (Point 1 1 5));
     Server.ClientOp "a" "-" "o6" "stroke:end" (endData "a" "g2")] in
  noStrokeCompleted st' (take 1 es) = true
  ∧ fst (Server.performUndo (Server.run (take 1 es) st')) = None
  ∧ noStrokeCompleted st' es = false
  ∧ fst (Server.performUndo (Server.run es st')) = Some (Some "g2").
Proof. by vm_compute. Qed.

(** An identity that collides with a logged one leaves that operation
    untombstoned: the freshness of the marker identity is needed. *)
Example finalizeClear_colliding_identity :
  op_tombstone <$> Server.ops (Server.finalizeClear "o1"
                                 (Server.run oneStroke Server.initial))
  = [false; true; true; false].
Proof. vm_compute. reflexivity. Qed.

(** ** The data-model invariant, and where the code breaks it *)

(** C1. A stroke that is still being drawn when a clear-all finalizes is
    tombstoned as a group, and the points that arrive afterwards join it
    untombstoned: the group's flag and its members' flags differ. *)
Theorem C1_point_joins_tombstoned_group :
  let st := Server.run clearedMidStroke Server.initial in
  Server.groups st !! Some "g1"
  = Some (Server.Group "stroke:start" (Some "a") [1; 3]%Z true)
  ∧ seqsOf (Server.ops st) = [1; 2; 3]%Z
  ∧ op_tombstone <$> Server.ops st = [true; false; false]
  ∧ ¬ groupsAtomic st.
Proof.
  repeat split; [by vm_compute..|].
  intros Hat.
  specialize (Hat (Some "g1")
                (Server.Group "stroke:start" (Some "a") [1; 3]%Z true)
                (Op 3 "o3" "stroke:point" (pointData "a" "g1" (Point 5 5 1)) false)).
  discriminate Hat.
  - by vm_compute.
  - apply (bool_decide_unpack _). by vm_compute.
  - apply (bool_decide_unpack _). by vm_compute.
Qed.

(** What does hold: a group that is not tombstoned never has a
    tombstoned member ([reachable_live_group_live_members]), and
    [setGroupTombstone] flips the group and all its members to the same
    value. *)
Lemma setGroupTombstone_atomic g val st gr o :
  serverInv st →
  Server.groups st !! g = Some gr →
  let st' := snd (Server.setGroupTombstone g val st) in
  Server.g_tombstone <$> Server.groups st' !! g = Some val
  ∧ (o ∈ Server.ops st' → op_seq o ∈ Server.g_seqs gr → op_tombstone o = val).
Proof.
  intros Hinv Hg. unfold Server.setGroupTombstone. rewrite Hg. simpl.
  rewrite lookup_insert_eq. split; [done|].
  rewrite markAll_map by apply logInv_NoDup, Hinv.
  intros (o0 & -> & Ho0)%list_elem_of_fmap Hs.
  case_bool_decide as Hin; [done|]. by destruct Hin.
Qed.

(** ** The vote and departures *)

Lemma checkQuorum_vote uuid st :
  Server.yes (Server.vote (Server.checkQuorum uuid st))
  = Server.yes (Server.vote st)
  ∧ Server.totalAtStart (Server.vote (Server.checkQuorum uuid st))
    = Server.totalAtStart (Server.vote st).
Proof. unfold Server.checkQuorum. by case_match. Qed.

(** A departure during a vote lowers the required count by one, not
    below zero, and leaves the yes-set as it is. *)
Lemma disconnect_lowers_required sid uuid st :
  Server.inProgress (Server.vote st) = true →
  let st' := Server.on_disconnect sid uuid st in
  Server.totalAtStart (Server.vote st')
  = Z.max (Server.totalAtStart (Server.vote st) - 1) 0
  ∧ Server.yes (Server.vote st') = Server.yes (Server.vote st).
Proof.
  intros Hp. unfold Server.on_disconnect. simpl. rewrite Hp.
  destruct (checkQuorum_vote uuid
    (Server.set_vote
       (Server.Vote true (Server.yes (Server.vote st))
          (Z.max (Server.totalAtStart (Server.vote st) - 1) 0))
       (Server.State (Server.seq st) (Server.ops st) (Server.groups st)
          (Server.undoStack st) (Server.redoStack st)
          (delete sid (Server.users st)) (Server.vote st)))) as [H1 H2].
  simpl in *. by rewrite H1, H2.
Qed.

(** C5. The requester leaves during its own vote: the required count
    drops from 3 to 2, but the requester stays in the yes-set although it
    is no longer connected; one more yes then finalizes the clear-all,
    against the no of a user who is still there. *)
Theorem C5_departed_user_still_counted :
  let st := Server.run requesterLeaves Server.initial in
  let st' := Server.step st (Server.ClearAllVote "u2" true "m4") in
  Server.inProgress (Server.vote st) = true
  ∧ Server.totalAtStart (Server.vote st) = 2%Z
  ∧ elements (Server.yes (Server.vote st)) = ["u1"]
  ∧ Server.users st !! "u1" = None
  ∧ (Server.u_id <$> Server.users st !! "u3") = Some "u3"
  ∧ ("u3" ∉ Server.yes (Server.vote st'))
  ∧ Server.inProgress (Server.vote st') = false
  ∧ Server.ops st' = [clearMarker 1 "m4"].
Proof.
  repeat split; try by vm_compute.
Qed.

(** ** The replay engine *)

Lemma applyOpToContext_reframe o l v st :
  Canvas.applyOpToContext o (reframe l v st)
  = reframe l v (Canvas.applyOpToContext o st).
Proof. unfold Canvas.applyOpToContext. by repeat case_match. Qed.

Lemma replayStep_reframe o l v st :
  Canvas.replayStep (reframe l v st) o = reframe l v (Canvas.replayStep st o).
Proof.
  unfold Canvas.replayStep. case_match; [done|].
  apply applyOpToContext_reframe.
Qed.

Lemma foldl_replayStep_reframe log l v st :
  foldl Canvas.replayStep (reframe l v st) log
  = reframe l v (foldl Canvas.replayStep st log).
Proof.
  revert st. induction log as [|o log IH]; intros st; simpl; [done|].
  by rewrite replayStep_reframe, IH.
Qed.

Lemma reframe_reframe l v l' v' st :
  reframe l v (reframe l' v' st) = reframe l v st.
Proof. done. Qed.

Lemma state_eta st : st = reframe (Canvas.opLog st) (Canvas.visible st) st.
Proof. by destruct st. Qed.

Lemma fullReplay_replayOf st :
  Canvas.fullReplay st
  = reframe (Canvas.opLog st) (Canvas.offscreen (replayOf (Canvas.opLog st)))
      (replayOf (Canvas.opLog st)).
Proof.
  unfold Canvas.fullReplay, replayOf.
  change (Canvas.State (Canvas.opLog st) [] (Canvas.visible st) ∅ ∅)
    with (reframe (Canvas.opLog st) (Canvas.visible st)
            (Canvas.State (Canvas.opLog st) [] [] ∅ ∅)).
  by rewrite foldl_replayStep_reframe.
Qed.

(** Replaying twice is replaying once. *)
Lemma fullReplay_idempotent st :
  Canvas.fullReplay (Canvas.fullReplay st) = Canvas.fullReplay st.
Proof.
  rewrite (fullReplay_replayOf (Canvas.fullReplay st)).
  assert (Canvas.opLog (Canvas.fullReplay st) = Canvas.opLog st) as ->
    by (by rewrite fullReplay_replayOf).
  symmetry. apply fullReplay_replayOf.
Qed.

Lemma inSync_fullReplay st : Canvas.inSync (Canvas.fullReplay st).
Proof. apply fullReplay_idempotent. Qed.

Lemma inSync_initial : Canvas.inSync Canvas.initial.
Proof. reflexivity. Qed.

Lemma inSync_setOpLog l st : Canvas.inSync (Canvas.setOpLog l st).
Proof. apply inSync_fullReplay. Qed.

Lemma inSync_resize st : Canvas.inSync (Canvas.resize st).
Proof. apply inSync_fullReplay. Qed.

(** Applied to an engine in sync with its log, the incremental
    application of an untombstoned operation is a full replay of the
    extended log. *)
Lemma replayOf_snoc l o :
  op_tombstone o = false →
  replayOf (l ++ [o])
  = reframe (l ++ [o]) [] (Canvas.applyOpToContext o (replayOf l)).
Proof.
  intros Ht. unfold replayOf. rewrite foldl_app. simpl.
  unfold Canvas.replayStep at 1. rewrite Ht.
  change (Canvas.State (l ++ [o]) [] [] ∅ ∅)
    with (reframe (l ++ [o]) [] (Canvas.State l [] [] ∅ ∅)).
  by rewrite foldl_replayStep_reframe, applyOpToContext_reframe.
Qed.

Lemma incremental_is_replay o st :
  Canvas.inSync st → op_tombstone o = false →
  Canvas.blit (Canvas.applyOpToContext o (Canvas.pushOp o st))
  = Canvas.fullReplay (Canvas.pushOp o st).
Proof.
  intros Hsync Ht.
  rewrite (fullReplay_replayOf (Canvas.pushOp o st)).
  change (Canvas.opLog (Canvas.pushOp o st)) with (Canvas.opLog st ++ [o]).
  rewrite replayOf_snoc by done.
  unfold Canvas.inSync in Hsync. rewrite fullReplay_replayOf in Hsync.
  assert (Hst : Canvas.applyOpToContext o st
    = reframe (Canvas.opLog st)
        (Canvas.offscreen (replayOf (Canvas.opLog st)))
        (Canvas.applyOpToContext o (replayOf (Canvas.opLog st)))).
  { rewrite <- Hsync at 1. apply applyOpToContext_reframe. }
  change (Canvas.pushOp o st)
    with (reframe (Canvas.opLog st ++ [o]) (Canvas.visible st) st).
  by rewrite applyOpToContext_reframe, Hst.
Qed.

Lemma applyOp_is_replay o st :
  Canvas.inSync st →
  Canvas.applyOp o st = Canvas.fullReplay (Canvas.pushOp o st).
Proof.
  intros Hsync. unfold Canvas.applyOp.
  destruct (op_tombstone o) eqn:Ht; simpl; [done|].
  case_match; [done|]. by apply incremental_is_replay.
Qed.

Lemma inSync_applyOp o st : Canvas.inSync st → Canvas.inSync (Canvas.applyOp o st).
Proof. intros H. rewrite applyOp_is_replay by done. apply inSync_fullReplay. Qed.

(** Pressing and releasing the pointer go through [applyOp] and keep the
    engine in sync; a move while drawing paints without logging. *)
Lemma inSync_down myId uuid e c :
  Canvas.inSync c.1 → Canvas.inSync (Canvas.down myId uuid e c).1.
Proof.
  destruct c as [st h]. unfold Canvas.down. case_match; [done|].
  simpl. apply inSync_applyOp.
Qed.

Lemma inSync_up myId c :
  Canvas.inSync c.1 → Canvas.inSync (Canvas.up myId c).1.
Proof.
  destruct c as [st h]. unfold Canvas.up. case_match; [done|].
  simpl. apply inSync_applyOp.
Qed.

(** A move while the pointer is down leaves the engine out of sync: the
    preview segment is on the surface and not in the log. *)
Example move_breaks_sync :
  Canvas.inSync bobDrawing ∧ ¬ Canvas.inSync previewing.1.
Proof.
  split; [by vm_compute|]. unfold Canvas.inSync. intros H.
  apply (f_equal Canvas.offscreen) in H. vm_compute in H. discriminate.
Qed.

(** C3 (amended). On an engine whose surface and caches are those of a
    replay of its log, a newly received untombstoned point operation takes
    the incremental path, and the state it leaves, surface included, is the
    state a full replay of the log with that operation leaves. *)
Theorem C3_incremental_point_equals_full_replay
    (o : op) (st : Canvas.state) :
  Canvas.inSync st →
  op_tombstone o = false →
  endsWith ":point" (op_kind o) = true →
  Canvas.applyOp o st
  = Canvas.blit (Canvas.applyOpToContext o (Canvas.pushOp o st))
  ∧ Canvas.applyOp o st = Canvas.fullReplay (Canvas.pushOp o st)
  ∧ Canvas.offscreen (Canvas.applyOp o st)
    = Canvas.offscreen (Canvas.fullReplay (Canvas.pushOp o st)).
Proof.
  intros Hsync Ht Hk.
  assert (Hfast : Canvas.applyOp o st
    = Canvas.blit (Canvas.applyOpToContext o (Canvas.pushOp o st))).
  { unfold Canvas.applyOp.
    by rewrite Ht, (endsWith_point_not_clear _ Hk), (endsWith_point_not_end _ Hk). }
  split; [done|]. rewrite Hfast, incremental_is_replay by done. done.
Qed.

Lemma C3_incremental_point_equals_full_replay_witness :
  Canvas.applyOp bobNext bobDrawing
  = Canvas.blit (Canvas.applyOpToContext bobNext (Canvas.pushOp bobNext bobDrawing))
  ∧ Canvas.applyOp bobNext bobDrawing
    = Canvas.fullReplay (Canvas.pushOp bobNext bobDrawing)
  ∧ Canvas.offscreen (Canvas.applyOp bobNext bobDrawing)
    = Canvas.offscreen (Canvas.fullReplay (Canvas.pushOp bobNext bobDrawing)).
Proof.
  apply (C3_incremental_point_equals_full_replay bobNext bobDrawing).
  - vm_compute. reflexivity.
  - reflexivity.
  - reflexivity.
Defined.

(** C3, as stated, fails: after a local preview the surface holds a
    segment that is not in the log, so the incremental application of the
    next received point leaves a surface with three strokes where a full
    replay of the log leaves two. *)
Lemma C3_counterexample :
  let st := previewing.1 in
  op_tombstone bobNext = false
  ∧ endsWith ":point" (op_kind bobNext) = true
  ∧ Canvas.offscreen (Canvas.applyOp bobNext st)
    = [Canvas.Stroke "source-over" "#222" 4 (0, 0) (0, 20);
       Canvas.Stroke "source-over" "#222" 4 (10, 10) (20, 20);
       Canvas.Stroke "source-over" "#222" 4 (0, 20) (0, 40)]%Z
  ∧ Canvas.offscreen (Canvas.fullReplay (Canvas.pushOp bobNext st))
    = [Canvas.Stroke "source-over" "#222" 4 (0, 0) (0, 20);
       Canvas.Stroke "source-over" "#222" 4 (0, 20) (0, 40)]%Z
  ∧ Canvas.offscreen (Canvas.applyOp bobNext st)
    ≠ Canvas.offscreen (Canvas.fullReplay (Canvas.pushOp bobNext st)).
Proof. vm_compute. repeat split; discriminate. Qed.

(** ** Points without a start *)

Lemma setLast_lookup uid v m : Canvas.setLast uid v m !! uid = v.
Proof.
  destruct v; simpl; [apply lookup_insert_eq|apply lookup_delete_eq].
Qed.

Lemma applyOpToContext_point o uid st :
  endsWith ":point" (op_kind o) = true →
  userId (op_data o) = Some uid → uid ≠ "" →
  Canvas.applyOpToContext o st
  = let brush := default (Brush "#222" 4 (Canvas.modeOf (op_kind o)))
                   (Canvas.currBrush st !! uid) in
    Canvas.State (Canvas.opLog st)
      (Canvas.drawSegment (Canvas.offscreen st) (Canvas.lastSeg st !! uid)
         (p (op_data o)) (width brush) (color brush) (mode brush))
      (Canvas.visible st)
      (Canvas.setLast uid (p (op_data o)) (Canvas.lastSeg st))
      (Canvas.currBrush st).
Proof.
  intros Hk Hu Hne. unfold Canvas.applyOpToContext. rewrite Hu. simpl.
  apply String.eqb_neq in Hne. rewrite Hne. simpl.
  by rewrite (endsWith_point_not_start _ Hk), Hk.
Qed.

(** C8 (amended). A point operation of a user with no cached last point
    paints nothing, in a replay and on the incremental path alike, and
    leaves the brush cache alone; it is not skipped, though: its point
    becomes the user's cached last point. *)
Theorem C8_point_without_start_paints_nothing
    (o : op) (uid : string) (st : Canvas.state) :
  endsWith ":point" (op_kind o) = true →
  userId (op_data o) = Some uid → uid ≠ "" →
  Canvas.lastSeg st !! uid = None →
  op_tombstone o = false →
  Canvas.offscreen (Canvas.replayStep st o) = Canvas.offscreen st
  ∧ Canvas.currBrush (Canvas.replayStep st o) = Canvas.currBrush st
  ∧ Canvas.lastSeg (Canvas.replayStep st o) !! uid = p (op_data o)
  ∧ Canvas.offscreen (Canvas.applyOp o st) = Canvas.offscreen st
  ∧ Canvas.currBrush (Canvas.applyOp o st) = Canvas.currBrush st
  ∧ Canvas.lastSeg (Canvas.applyOp o st) !! uid = p (op_data o).
Proof.
  intros Hk Hu Hne Hlast Ht.
  unfold Canvas.replayStep, Canvas.applyOp.
  rewrite Ht, (endsWith_point_not_clear _ Hk), (endsWith_point_not_end _ Hk).
  rewrite !(applyOpToContext_point o uid) by done. simpl.
  rewrite Hlast, setLast_lookup. done.
Qed.

Lemma C8_point_without_start_paints_nothing_witness :
  Canvas.offscreen (Canvas.replayStep Canvas.initial orphan1) = []
  ∧ Canvas.currBrush (Canvas.replayStep Canvas.initial orphan1) = ∅
  ∧ Canvas.lastSeg (Canvas.replayStep Canvas.initial orphan1) !! "eve"
    = Some (Point 1 1 0)
  ∧ Canvas.offscreen (Canvas.applyOp orphan1 Canvas.initial) = []
  ∧ Canvas.currBrush (Canvas.applyOp orphan1 Canvas.initial) = ∅
  ∧ Canvas.lastSeg (Canvas.applyOp orphan1 Canvas.initial) !! "eve"
    = Some (Point 1 1 0).
Proof.
  apply (C8_point_without_start_paints_nothing orphan1 "eve" Canvas.initial);
    try reflexivity.
  discriminate.
Defined.

(** C8, as stated, fails: the first point of a user without a start is
    not skipped, it is cached as the user's last point, and the next
    point of that user is painted from it with the fallback brush
    ([#222], width 4), in a full replay and incrementally. *)
Lemma C8_counterexample :
  Canvas.lastSeg Canvas.initial !! "eve" = None
  ∧ Canvas.currBrush Canvas.initial !! "eve" = None
  ∧ Canvas.applyOpToContext orphan1 Canvas.initial ≠ Canvas.initial
  ∧ Canvas.offscreen
      (Canvas.applyOp orphan2 (Canvas.applyOp orphan1 Canvas.initial))
    = [Canvas.Stroke "source-over" "#222" 4 (1, 1) (9, 9)]%Z
  ∧ render [orphan1; orphan2]
    = [Canvas.Stroke "source-over" "#222" 4 (1, 1) (9, 9)]%Z.
Proof.
  repeat split; by vm_compute.
Qed.

(** The fallback brush at work: a point of a user with a cached last
    point and no cached brush is painted with color [#222] and width 4,
    the mode being read off the kind of the point itself. *)
Lemma point_without_brush_uses_fallback o uid q st :
  endsWith ":point" (op_kind o) = true →
  userId (op_data o) = Some uid → uid ≠ "" →
  Canvas.lastSeg st !! uid = Some q →
  Canvas.currBrush st !! uid = None →
  Canvas.offscreen (Canvas.applyOpToContext o st)
  = Canvas.drawSegment (Canvas.offscreen st) (Some q) (p (op_data o))
      4 "#222" (Canvas.modeOf (op_kind o)).
Proof.
  intros Hk Hu Hne Hlast Hbrush.
  rewrite (applyOpToContext_point o uid) by done. simpl.
  by rewrite Hlast, Hbrush.
Qed.

(** An operation without a (truthy) user identity is skipped. *)
Lemma applyOpToContext_no_user o st :
  truthy (userId (op_data o)) = false → Canvas.applyOpToContext o st = st.
Proof.
  unfold Canvas.applyOpToContext. destruct (userId (op_data o)); [|done].
  by intros ->.
Qed.

(** * Further properties of the server *)

(** ** The log is append-only *)

Lemma markFirst_core val s l :
  coreOf <$> Server.markFirst val s l = coreOf <$> l.
Proof.
  induction l as [|o r IH]; [done|].
  cbn [Server.markFirst]. case_match; rewrite !fmap_cons; [done|].
  by rewrite IH.
Qed.

Lemma markAll_core val ss l :
  coreOf <$> Server.markAll val ss l = coreOf <$> l.
Proof.
  unfold Server.markAll. revert l.
  induction ss as [|s ss IH]; intros l; cbn [foldl]; [done|].
  by rewrite IH, markFirst_core.
Qed.

Lemma setGroupTombstone_core g val st :
  coreOf <$> Server.ops (snd (Server.setGroupTombstone g val st))
  = coreOf <$> Server.ops st.
Proof.
  unfold Server.setGroupTombstone. case_match; [|done].
  apply markAll_core.
Qed.

Lemma undoLoop_core stack st :
  coreOf <$> Server.ops (snd (Server.undoLoop stack st))
  = coreOf <$> Server.ops st.
Proof.
  induction stack as [|g rest IH]; simpl; [done|].
  destruct (Server.groups st !! g) as [gr|] eqn:E; [|done].
  destruct (Server.g_tombstone gr); simpl; [done|].
  apply setGroupTombstone_core.
Qed.

Lemma redoLoop_core stack st :
  coreOf <$> Server.ops (snd (Server.redoLoop stack st))
  = coreOf <$> Server.ops st.
Proof.
  induction stack as [|g rest IH]; simpl; [done|].
  destruct (Server.groups st !! g) as [gr|] eqn:E; [|done].
  destruct (Server.g_tombstone gr); simpl; [|done].
  apply setGroupTombstone_core.
Qed.

Lemma finalizeClear_core uuid st :
  coreOf <$> Server.ops (Server.finalizeClear uuid st)
  = (coreOf <$> Server.ops st)
    ++ [coreOf (clearMarker (Server.seq st + 1) uuid)].
Proof.
  rewrite finalizeClear_unfold. simpl.
  rewrite <- list_fmap_compose, fmap_app. f_equal.
  - apply list_fmap_ext. intros ? o _. simpl. by case_match.
  - simpl. by rewrite String.eqb_refl.
Qed.

Lemma checkQuorum_log uuid st :
  (coreOf <$> Server.ops (Server.checkQuorum uuid st) = coreOf <$> Server.ops st
   ∧ Server.seq (Server.checkQuorum uuid st) = Server.seq st)
  ∨ (coreOf <$> Server.ops (Server.checkQuorum uuid st)
     = (coreOf <$> Server.ops st)
       ++ [coreOf (clearMarker (Server.seq st + 1) uuid)]
     ∧ Server.seq (Server.checkQuorum uuid st) = (Server.seq st + 1)%Z).
Proof.
  unfold Server.checkQuorum. case_match; [right|by left].
  split; [apply finalizeClear_core|by rewrite finalizeClear_unfold].
Qed.

(** What an event does to the log, tombstones apart, and to the counter:
    nothing, or one operation more at the end, numbered by the counter. *)
Lemma step_log st e :
  (coreOf <$> Server.ops (Server.step st e) = coreOf <$> Server.ops st
   ∧ Server.seq (Server.step st e) = Server.seq st)
  ∨ ∃ o, coreOf <$> Server.ops (Server.step st e)
         = (coreOf <$> Server.ops st) ++ [coreOf o]
         ∧ op_seq o = (Server.seq st + 1)%Z
         ∧ Server.seq (Server.step st e) = (Server.seq st + 1)%Z.
Proof.
  assert (Hq : ∀ uuid s, Server.seq s = Server.seq st →
            Server.ops s = Server.ops st →
            (coreOf <$> Server.ops (Server.checkQuorum uuid s)
             = coreOf <$> Server.ops st
             ∧ Server.seq (Server.checkQuorum uuid s) = Server.seq st)
            ∨ ∃ o, coreOf <$> Server.ops (Server.checkQuorum uuid s)
                   = (coreOf <$> Server.ops st) ++ [coreOf o]
                   ∧ op_seq o = (Server.seq st + 1)%Z
                   ∧ Server.seq (Server.checkQuorum uuid s)
                     = (Server.seq st + 1)%Z).
  { intros uuid s Hs Ho.
    destruct (checkQuorum_log uuid s) as [[H1 H2]|[H1 H2]];
      rewrite Hs, Ho in *; [by left|right].
    eexists. split; [exact H1|]. by split. }
  destruct e; simpl.
  - by left.
  - right. unfold Server.on_client_op. rewrite addOp_ops, addOp_seq, fmap_app.
    by eexists.
  - left. split; [apply undoLoop_core|apply undoLoop_frame].
  - left. split; [apply redoLoop_core|apply redoLoop_frame].
  - unfold Server.on_clear_all_request. case_match; [by left|]. by apply Hq.
  - unfold Server.on_clear_all_vote. case_match; [by left|]. by apply Hq.
  - unfold Server.on_disconnect. simpl. case_match; [|by left]. by apply Hq.
Qed.

(** X1. Operations are never removed, reordered or rewritten: whatever
    the server receives, the log it had, tombstone flags apart, is a
    prefix of the log it has afterwards. *)
Theorem X1_log_is_append_only (es : list Server.event) (st : Server.state) :
  (coreOf <$> Server.ops st) `prefix_of` (coreOf <$> Server.ops (Server.run es st)).
Proof.
  unfold Server.run. revert st.
  induction es as [|e es IH]; intros st; simpl; [done|].
  etrans; [|apply IH].
  destruct (step_log st e) as [[-> _]|(o & -> & _)]; [done|].
  by apply prefix_app_r.
Qed.

(** ** The counter and the length of the log *)

(** X2. At every reachable state the counter is the number of logged
    operations, and the operation at index [i] carries the sequence
    number [i + 1]. *)
Theorem X2_counter_is_log_length (es : list Server.event) :
  let st := Server.run es Server.initial in
  Server.seq st = Z.of_nat (length (Server.ops st))
  ∧ ∀ i o, Server.ops st !! i = Some o → op_seq o = (Z.of_nat i + 1)%Z.
Proof.
  induction es as [|e es IH] using rev_ind; [by split|].
  rewrite run_snoc. simpl in *. destruct IH as [IHseq IHops].
  set (st := Server.run es Server.initial) in *.
  assert (Hlen : ∀ l : list op, length (coreOf <$> l) = length l)
    by (intros; apply length_fmap).
  assert (Hget : ∀ (l : list op) i o, l !! i = Some o →
            (coreOf <$> l) !! i = Some (coreOf o))
    by (intros l i o H; by rewrite list_lookup_fmap, H).
  destruct (step_log st e) as [[Hcore Hseq]|(o' & Hcore & Ho' & Hseq)].
  - split.
    + rewrite Hseq, IHseq, <- !Hlen. by rewrite Hcore.
    + intros i o Hio%Hget. rewrite Hcore, list_lookup_fmap in Hio.
      destruct (Server.ops st !! i) as [o0|] eqn:E; [|done].
      simpl in Hio. injection Hio as Hs _ _ _. rewrite <- Hs. by eapply IHops.
  - split.
    + rewrite Hseq, IHseq, <- !Hlen, Hcore, length_app. simpl. lia.
    + intros i o Hio%Hget. rewrite Hcore in Hio.
      apply lookup_app_Some in Hio as [Hio|[Hge Hio]].
      * rewrite list_lookup_fmap in Hio.
        destruct (Server.ops st !! i) as [o0|] eqn:E; [|done].
        simpl in Hio. injection Hio as Hs _ _ _. rewrite <- Hs.
        by eapply IHops.
      * rewrite Hlen in Hge, Hio.
        destruct (i - length (Server.ops st))%nat eqn:Ei; [|by destruct n].
        simpl in Hio. injection Hio as Hs _ _ _.
        rewrite <- Hs, Ho', IHseq. lia.
Qed.

(** ** The vote *)

Lemma voteInv_checkQuorum uuid st :
  (0 < size (Server.yes (Server.vote st)))%nat →
  voteInv (Server.checkQuorum uuid st).
Proof.
  intros Hpos. unfold Server.checkQuorum.
  destruct (Z.leb_spec (Server.totalAtStart (Server.vote st))
              (Z.of_nat (size (Server.yes (Server.vote st))))) as [Hle|Hlt].
  - rewrite finalizeClear_unfold. by intros ?.
  - by intros _.
Qed.

Lemma voteInv_frame st st' :
  Server.vote st' = Server.vote st → voteInv st → voteInv st'.
Proof. unfold voteInv. by intros ->. Qed.

Lemma voteInv_step st e : voteInv st → voteInv (Server.step st e).
Proof.
  intros Hinv. destruct e; simpl.
  - by apply (voteInv_frame st).
  - apply (voteInv_frame st); [apply addOp_vote|done].
  - apply (voteInv_frame st); [apply undoLoop_frame|done].
  - apply (voteInv_frame st); [apply redoLoop_frame|done].
  - unfold Server.on_clear_all_request. case_match; [done|].
    apply voteInv_checkQuorum. cbn [Server.set_vote Server.vote Server.yes].
    rewrite size_singleton. lia.
  - unfold Server.on_clear_all_vote.
    destruct (Server.inProgress (Server.vote st)) eqn:Hp; simpl; [|done].
    apply voteInv_checkQuorum. cbn [Server.set_vote Server.vote Server.yes].
    destruct (Hinv Hp) as [Hpos _].
    destruct y; [|done].
    apply Nat.lt_le_trans with (size (Server.yes (Server.vote st))); [done|].
    apply subseteq_size, union_subseteq_r.
  - unfold Server.on_disconnect. simpl.
    destruct (Server.inProgress (Server.vote st)) eqn:Hp; simpl.
    + apply voteInv_checkQuorum. cbn [Server.set_vote Server.vote Server.yes].
      by destruct (Hinv Hp).
    + intros Hp'. simpl in Hp'. congruence.
Qed.

Lemma reachable_voteInv es : voteInv (Server.run es Server.initial).
Proof.
  induction es as [|e es IH] using rev_ind; [done|].
  rewrite run_snoc. by apply voteInv_step.
Qed.

(** X3. A vote never stays pending once the required count is reached:
    at every reachable state with a vote in progress the yes-set is
    non-empty and strictly smaller than the required count. *)
Theorem X3_pending_vote_below_quorum (es : list Server.event) :
  let v := Server.vote (Server.run es Server.initial) in
  Server.inProgress v = true →
  (0 < size (Server.yes v))%nat
  ∧ (Z.of_nat (size (Server.yes v)) < Server.totalAtStart v)%Z.
Proof. apply reachable_voteInv. Qed.

Lemma X3_pending_vote_below_quorum_witness :
  let v := Server.vote (Server.run requesterLeaves Server.initial) in
  (0 < size (Server.yes v))%nat
  ∧ (Z.of_nat (size (Server.yes v)) < Server.totalAtStart v)%Z.
Proof.
  apply (X3_pending_vote_below_quorum requesterLeaves). reflexivity.
Defined.

(** X4. At every reachable state with a vote pending, no event raises
    the required count or removes a yes, and only a disconnection lowers
    the count. *)
Theorem X4_required_count_only_decreases
    (es : list Server.event) (e : Server.event) :
  let st := Server.run es Server.initial in
  Server.inProgress (Server.vote st) = true →
  let v := Server.vote st in
  let v' := Server.vote (Server.step st e) in
  (Server.totalAtStart v' <= Server.totalAtStart v)%Z
  ∧ Server.yes v ⊆ Server.yes v'
  ∧ (isDisconnect e = false → Server.totalAtStart v' = Server.totalAtStart v).
Proof.
  intros st Hp v v'. subst v v'.
  destruct (reachable_voteInv es Hp) as [_ Hlt]. fold st in Hlt.
  destruct e; cbn [Server.step isDisconnect].
  - done.
  - unfold Server.on_client_op. by rewrite addOp_vote.
  - unfold Server.on_client_undo, Server.performUndo.
    by destruct (undoLoop_frame (Server.undoStack st) st) as (_ & _ & ->).
  - unfold Server.on_client_redo, Server.performRedo.
    by destruct (redoLoop_frame (Server.redoStack st) st) as (_ & _ & ->).
  - unfold Server.on_clear_all_request. by rewrite Hp.
  - unfold Server.on_clear_all_vote. rewrite Hp. cbn [negb].
    match goal with |- context [Server.checkQuorum ?u ?s] =>
      destruct (checkQuorum_vote u s) as [-> ->] end.
    cbn [Server.set_vote Server.vote Server.yes Server.totalAtStart].
    split; [lia|]. split; [|done].
    destruct y; [apply union_subseteq_r|done].
  - unfold Server.on_disconnect. cbn [Server.vote]. rewrite Hp.
    match goal with |- context [Server.checkQuorum ?u ?s] =>
      destruct (checkQuorum_vote u s) as [-> ->] end.
    cbn [Server.set_vote Server.vote Server.yes Server.totalAtStart].
    split; [lia|]. split; [done|]. discriminate.
Qed.

Lemma X4_required_count_only_decreases_witness :
  let st := Server.run requesterLeaves Server.initial in
  let v := Server.vote st in
  let v' := Server.vote (Server.step st (Server.Disconnect "u3" "m9")) in
  (Server.totalAtStart v' <= Server.totalAtStart v)%Z
  ∧ Server.yes v ⊆ Server.yes v'
  ∧ (isDisconnect (Server.Disconnect "u3" "m9") = false →
     Server.totalAtStart v' = Server.totalAtStart v).
Proof.
  apply (X4_required_count_only_decreases requesterLeaves
           (Server.Disconnect "u3" "m9")).
  reflexivity.
Defined.

Lemma state_vote_eta st :
  Server.set_vote
    (Server.Vote (Server.inProgress (Server.vote st))
       (Server.yes (Server.vote st)) (Server.totalAtStart (Server.vote st)))
    st = st.
Proof. destruct st as [? ? ? ? ? ? []]. done. Qed.

(** X5. At every reachable state a no vote changes nothing: it neither
    finalizes the vote nor touches any other part of the room. *)
Theorem X5_no_vote_changes_nothing
    (es : list Server.event) (sid uuid : string) :
  let st := Server.run es Server.initial in
  Server.on_clear_all_vote sid false uuid st = st.
Proof.
  intros st. unfold Server.on_clear_all_vote.
  destruct (Server.inProgress (Server.vote st)) eqn:Hp; simpl; [|done].
  destruct (reachable_voteInv es Hp) as [_ Hlt]. fold st in Hlt.
  rewrite <- Hp, state_vote_eta. unfold Server.checkQuorum.
  destruct (Z.leb_spec (Server.totalAtStart (Server.vote st))
              (Z.of_nat (size (Server.yes (Server.vote st))))); [lia|done].
Qed.

(** X6. Voting yes twice is voting yes once, whatever identity the
    second call would give to a marker. *)
Theorem X6_yes_vote_is_idempotent
    (st : Server.state) (sid uuid1 uuid2 : string) :
  Server.on_clear_all_vote sid true uuid2
    (Server.on_clear_all_vote sid true uuid1 st)
  = Server.on_clear_all_vote sid true uuid1 st.
Proof.
  set (st1 := Server.on_clear_all_vote sid true uuid1 st).
  assert (Hst1 : st1 = Server.on_clear_all_vote sid true uuid1 st) by done.
  unfold Server.on_clear_all_vote in Hst1.
  destruct (Server.inProgress (Server.vote st)) eqn:Hp; cbn [negb] in Hst1.
  2:{ rewrite Hst1. unfold Server.on_clear_all_vote. by rewrite Hp. }
  unfold Server.checkQuorum in Hst1.
  cbn [Server.set_vote Server.vote Server.yes Server.totalAtStart] in Hst1.
  destruct (Z.leb_spec (Server.totalAtStart (Server.vote st))
              (Z.of_nat (size ({[sid]} ∪ Server.yes (Server.vote st)))))
    as [Hle|Hlt].
  - unfold Server.on_clear_all_vote.
    rewrite Hst1 at 1. by rewrite finalizeClear_unfold.
  - unfold Server.on_clear_all_vote, Server.checkQuorum. rewrite Hst1.
    cbn [Server.set_vote Server.vote Server.yes Server.totalAtStart
         Server.inProgress negb].
    assert (({[sid]} ∪ ({[sid]} ∪ Server.yes (Server.vote st)) : gset string)
            = {[sid]} ∪ Server.yes (Server.vote st)) as ->.
    { rewrite (assoc_L _), union_idemp_L. done. }
    destruct (Z.leb_spec (Server.totalAtStart (Server.vote st))
                (Z.of_nat (size ({[sid]} ∪ Server.yes (Server.vote st)))));
      [lia|done].
Qed.

(** X7. With at most one user connected a clear-all request finalizes
    at once: the marker is appended and no vote is left pending. *)
Theorem X7_lone_request_finalizes
    (st : Server.state) (sid uuid : string) :
  Server.inProgress (Server.vote st) = false →
  (size (Server.users st) ≤ 1)%nat →
  let st' := Server.on_clear_all_request sid uuid st in
  Server.inProgress (Server.vote st') = false
  ∧ Server.ops st'
    = ((fun o => if String.eqb (op_id o) uuid then o
                 else set_op_tombstone true o) <$> Server.ops st)
      ++ [clearMarker (Server.seq st + 1) uuid]
  ∧ Server.undoStack st' = [] ∧ Server.redoStack st' = [].
Proof.
  intros Hp Hsize. unfold Server.on_clear_all_request. rewrite Hp.
  unfold Server.checkQuorum.
  cbn [Server.set_vote Server.vote Server.yes Server.totalAtStart].
  rewrite size_singleton.
  destruct (Z.leb_spec (Z.of_nat (size (Server.users st))) (Z.of_nat 1));
    [|lia].
  rewrite finalizeClear_unfold. simpl. repeat split.
  rewrite fmap_app. simpl. by rewrite String.eqb_refl.
Qed.

Lemma X7_lone_request_finalizes_witness :
  let st := Server.run oneStroke Server.initial in
  let st' := Server.on_clear_all_request "a" "m1" st in
  Server.inProgress (Server.vote st') = false
  ∧ Server.ops st'
    = ((fun o => if String.eqb (op_id o) "m1" then o
                 else set_op_tombstone true o) <$> Server.ops st)
      ++ [clearMarker (Server.seq st + 1) "m1"]
  ∧ Server.undoStack st' = [] ∧ Server.redoStack st' = [].
Proof.
  apply (X7_lone_request_finalizes (Server.run oneStroke Server.initial)
           "a" "m1").
  - reflexivity.
  - apply (bool_decide_unpack _). vm_compute. exact I.
Defined.

(** ** Presence *)

Lemma state_eta_server st :
  Server.State (Server.seq st) (Server.ops st) (Server.groups st)
    (Server.undoStack st) (Server.redoStack st) (Server.users st)
    (Server.vote st) = st.
Proof. by destruct st. Qed.

(** X8. Outside a vote, a socket that connects and disconnects leaves
    the room exactly as it was. *)
Theorem X8_join_then_leave_restores_room
    (st : Server.state) (sid uuid : string) :
  Server.users st !! sid = None →
  Server.inProgress (Server.vote st) = false →
  Server.on_disconnect sid uuid (Server.on_connection sid st) = st.
Proof.
  intros Hfresh Hp. unfold Server.on_disconnect, Server.on_connection.
  simpl. rewrite Hp, delete_insert_eq, delete_id by done.
  apply state_eta_server.
Qed.

Lemma X8_join_then_leave_restores_room_witness :
  let st := Server.run oneStroke Server.initial in
  Server.on_disconnect "b" "m1" (Server.on_connection "b" st) = st.
Proof.
  apply (X8_join_then_leave_restores_room
           (Server.run oneStroke Server.initial) "b" "m1"); reflexivity.
Defined.

(** X9. During a vote, a socket that connects and disconnects leaves
    the set of users as it was and still lowers the required count by
    one: a passer-by that was never counted makes the vote easier. *)
Theorem X9_passer_by_lowers_required_count
    (st : Server.state) (sid uuid : string) :
  Server.users st !! sid = None →
  Server.inProgress (Server.vote st) = true →
  let st' := Server.on_disconnect sid uuid (Server.on_connection sid st) in
  Server.users st' = Server.users st
  ∧ Server.totalAtStart (Server.vote st')
    = Z.max (Server.totalAtStart (Server.vote st) - 1) 0
  ∧ Server.yes (Server.vote st') = Server.yes (Server.vote st).
Proof.
  intros Hfresh Hp st'. subst st'.
  destruct (disconnect_lowers_required sid uuid (Server.on_connection sid st) Hp)
    as [Ht Hy].
  split; [|by split].
  unfold Server.on_disconnect, Server.on_connection. simpl. rewrite Hp.
  by rewrite checkQuorum_users; simpl; rewrite delete_insert_eq, delete_id.
Qed.

Lemma X9_passer_by_lowers_required_count_witness :
  let st := Server.run requesterLeaves Server.initial in
  let st' := Server.on_disconnect "u4" "m9" (Server.on_connection "u4" st) in
  Server.users st' = Server.users st
  ∧ Server.totalAtStart (Server.vote st')
    = Z.max (Server.totalAtStart (Server.vote st) - 1) 0
  ∧ Server.yes (Server.vote st') = Server.yes (Server.vote st).
Proof.
  apply (X9_passer_by_lowers_required_count
           (Server.run requesterLeaves Server.initial) "u4" "m9");
    reflexivity.
Defined.

(** ** The stacks and the group table *)

Lemma known_addOp uuid kind data st g :
  known st g → known (snd (Server.addOp uuid kind data st)) g.
Proof.
  unfold known. intros [gr Hg].
  destruct (decide (g = groupId data)) as [->|Hne].
  - destruct (addOp_groups uuid kind data st) as [_ [H|[H|(gr' & _ & H)]]];
      rewrite H; eauto.
  - destruct (addOp_groups uuid kind data st) as [H _].
    rewrite H by done. eauto.
Qed.

Lemma stacks_addOp uuid kind data st :
  let st' := snd (Server.addOp uuid kind data st) in
  (Server.undoStack st' = Server.undoStack st
   ∧ Server.redoStack st' = Server.redoStack st)
  ∨ (Server.undoStack st' = groupId data :: Server.undoStack st
     ∧ Server.redoStack st' = [] ∧ known st (groupId data))
  ∨ (Server.undoStack st' = [] ∧ Server.redoStack st' = []).
Proof.
  unfold Server.addOp, known.
  repeat case_match; simpl; eauto 6.
Qed.

Lemma known_setGroupTombstone g val st g' :
  known st g' → known (snd (Server.setGroupTombstone g val st)) g'.
Proof.
  unfold known, Server.setGroupTombstone.
  destruct (Server.groups st !! g) as [gr|] eqn:E; [|done]. simpl.
  intros H. apply lookup_insert_is_Some.
  destruct (decide (g = g')); [by left|by right].
Qed.

Lemma undoLoop_known stack st :
  Forall (known st) stack → Forall (known st) (Server.redoStack st) →
  let st' := snd (Server.undoLoop stack st) in
  Forall (known st') (Server.undoStack st' ++ Server.redoStack st').
Proof.
  induction 1 as [|g rest Hg Hrest IH]; intros Hredo; simpl; [done|].
  destruct (Server.groups st !! g) as [gr|] eqn:E; [|by apply IH].
  destruct (Server.g_tombstone gr); simpl; [by apply IH|].
  destruct (setGroupTombstone_frame g true st) as (_ & _ & _ & _ & ->).
  apply Forall_app. split; [|constructor];
    try (eapply Forall_impl; [eassumption|]);
    intros; by apply known_setGroupTombstone.
Qed.

Lemma redoLoop_known stack st :
  Forall (known st) stack → Forall (known st) (Server.undoStack st) →
  let st' := snd (Server.redoLoop stack st) in
  Forall (known st') (Server.undoStack st' ++ Server.redoStack st').
Proof.
  induction 1 as [|g rest Hg Hrest IH]; intros Hundo; simpl.
  { by rewrite app_nil_r. }
  destruct (Server.groups st !! g) as [gr|] eqn:E; [|by apply IH].
  destruct (Server.g_tombstone gr); simpl; [|by apply IH].
  destruct (setGroupTombstone_frame g false st) as (_ & _ & _ & -> & _).
  constructor; [by apply known_setGroupTombstone|].
  apply Forall_app. split;
    (eapply Forall_impl; [eassumption|]);
    intros; by apply known_setGroupTombstone.
Qed.

Lemma known_finalize_stacks uuid st :
  let st' := Server.checkQuorum uuid st in
  Forall (known st) (Server.undoStack st ++ Server.redoStack st) →
  Forall (known st') (Server.undoStack st' ++ Server.redoStack st').
Proof.
  unfold Server.checkQuorum. case_match; [|done].
  by rewrite finalizeClear_unfold.
Qed.

Lemma stacks_known_step st e :
  Forall (known st) (Server.undoStack st ++ Server.redoStack st) →
  Forall (known (Server.step st e))
    (Server.undoStack (Server.step st e) ++ Server.redoStack (Server.step st e)).
Proof.
  intros H. destruct e; cbn [Server.step].
  - done.
  - unfold Server.on_client_op.
    set (d := Server.mint uuidG kind data).
    destruct (stacks_addOp uuidO kind d st) as [[-> ->]|[(-> & -> & Hk)|[-> ->]]].
    + eapply Forall_impl; [exact H|]. intros. by apply known_addOp.
    + rewrite app_nil_r. apply Forall_app in H as [H _].
      constructor; [by apply known_addOp|].
      eapply Forall_impl; [exact H|]. intros. by apply known_addOp.
    + done.
  - apply Forall_app in H as [H1 H2]. by apply undoLoop_known.
  - apply Forall_app in H as [H1 H2]. by apply redoLoop_known.
  - unfold Server.on_clear_all_request. case_match; [done|].
    by apply known_finalize_stacks.
  - unfold Server.on_clear_all_vote. case_match; [done|].
    by apply known_finalize_stacks.
  - unfold Server.on_disconnect. cbn [Server.vote]. case_match; [|done].
    by apply known_finalize_stacks.
Qed.

(** X10. At every reachable state each entry of the undo stack and of
    the redo stack refers to a group of the table: the test for a missing
    group in [performUndo] and [performRedo] never fires. *)
Theorem X10_stacks_refer_to_known_groups (es : list Server.event) :
  let st := Server.run es Server.initial in
  Forall (fun g => is_Some (Server.groups st !! g))
    (Server.undoStack st ++ Server.redoStack st).
Proof.
  induction es as [|e es IH] using rev_ind; [by constructor|].
  rewrite run_snoc. by apply stacks_known_step.
Qed.

(** ** What an undo does *)

(** X11. At every reachable state a successful undo tombstones every
    operation whose sequence number is a member of the group, touches no
    other operation, and tombstones that group and no other. *)
Theorem X11_undo_tombstones_exactly_the_members
    (es : list Server.event) (g : option string) (st1 : Server.state) :
  let st := Server.run es Server.initial in
  Server.performUndo st = (Some g, st1) →
  ∃ gr, Server.groups st !! g = Some gr
    ∧ Server.ops st1
      = (fun o => if bool_decide (op_seq o ∈ Server.g_seqs gr)
                  then set_op_tombstone true o else o) <$> Server.ops st
    ∧ Server.groups st1
      = <[g := Server.set_g_tombstone true gr]> (Server.groups st).
Proof.
  intros st (gr & skipped & rest & _ & Hg & _ & ->)%undoLoop_success.
  exists gr. split; [done|]. simpl. split; [|done].
  apply markAll_map, logInv_NoDup, (serverInv_run es _ serverInv_initial).
Qed.

Lemma X11_undo_tombstones_exactly_the_members_witness :
  let st := Server.run oneStroke Server.initial in
  let st1 := snd (Server.performUndo st) in
  ∃ gr, Server.groups st !! Some "g1" = Some gr
    ∧ Server.ops st1
      = (fun o => if bool_decide (op_seq o ∈ Server.g_seqs gr)
                  then set_op_tombstone true o else o) <$> Server.ops st
    ∧ Server.groups st1
      = <[Some "g1" := Server.set_g_tombstone true gr]> (Server.groups st).
Proof.
  apply (X11_undo_tombstones_exactly_the_members oneStroke (Some "g1")
           (snd (Server.performUndo (Server.run oneStroke Server.initial)))).
  vm_compute. reflexivity.
Defined.



Lemma redoLoop_success stack st g st1 :
  Server.redoLoop stack st = (Some g, st1) →
  ∃ gr skipped rest,
    stack = skipped ++ g :: rest
    ∧ Server.groups st !! g = Some gr
    ∧ Server.g_tombstone gr = true
    ∧ st1 = Server.State (Server.seq st)
              (Server.markAll false (Server.g_seqs gr) (Server.ops st))
              (<[g := Server.set_g_tombstone false gr]> (Server.groups st))
              (g :: Server.undoStack st) rest (Server.users st)
              (Server.vote st).
Proof.
  induction stack as [|g' rest IH]; simpl; [done|].
  destruct (Server.groups st !! g') as [gr|] eqn:Eg.
  - destruct (Server.g_tombstone gr) eqn:Et; simpl.
    + unfold Server.setGroupTombstone. rewrite Eg. simpl.
      intros [= <- <-]. exists gr, [], rest. done.
    + intros (gr0 & skipped & rest0 & -> & H)%IH.
      exists gr0, (g' :: skipped), rest0. done.
  - intros (gr0 & skipped & rest0 & -> & H)%IH.
    exists gr0, (g' :: skipped), rest0. done.
Qed.

(** X30. At every reachable state a successful redo of a group, which
    was tombstoned, untombstones every operation whose sequence number is
    a member of the group, members appended since the undo included,
    touches no other operation, untombstones that group and no other, and
    puts it on top of the undo stack. *)
Theorem X30_redo_restores_exactly_the_members
    (es : list Server.event) (g : option string) (st1 : Server.state) :
  let st := Server.run es Server.initial in
  Server.performRedo st = (Some g, st1) →
  ∃ gr, Server.groups st !! g = Some gr
    ∧ Server.g_tombstone gr = true
    ∧ Server.ops st1
      = (fun o => if bool_decide (op_seq o ∈ Server.g_seqs gr)
                  then set_op_tombstone false o else o) <$> Server.ops st
    ∧ Server.groups st1
      = <[g := Server.set_g_tombstone false gr]> (Server.groups st)
    ∧ Server.undoStack st1 = g :: Server.undoStack st.
Proof.
  intros st (gr & skipped & rest & _ & Hg & Ht & ->)%redoLoop_success.
  exists gr. split; [done|]. split; [done|]. simpl. split; [|done].
  apply markAll_map, logInv_NoDup, (serverInv_run es _ serverInv_initial).
Qed.

Lemma X30_redo_restores_exactly_the_members_witness :
  let st := Server.run (oneStroke ++ [Server.ClientUndo "a"]) Server.initial in
  let st1 := snd (Server.performRedo st) in
  ∃ gr, Server.groups st !! Some "g1" = Some gr
    ∧ Server.g_tombstone gr = true
    ∧ Server.ops st1
      = (fun o => if bool_decide (op_seq o ∈ Server.g_seqs gr)
                  then set_op_tombstone false o else o) <$> Server.ops st
    ∧ Server.groups st1
      = <[Some "g1" := Server.set_g_tombstone false gr]> (Server.groups st)
    ∧ Server.undoStack st1 = Some "g1" :: Server.undoStack st.
Proof.
  apply (X30_redo_restores_exactly_the_members
           (oneStroke ++ [Server.ClientUndo "a"]) (Some "g1")
           (snd (Server.performRedo
                   (Server.run (oneStroke ++ [Server.ClientUndo "a"])
                      Server.initial)))).
  vm_compute. reflexivity.
Defined.

(** ** Strokes and the stacks *)

Lemma endsWith_end_not_start k :
  endsWith ":end" k = true → endsWith ":start" k = false.
Proof.
  intros H. destruct (endsWith ":start" k) eqn:E; [|done].
  apply endsWith_last in H; [|simpl; lia].
  apply endsWith_last in E; [|simpl; lia].
  rewrite H in E. discriminate.
Qed.

Lemma endsWith_end_not_point k :
  endsWith ":end" k = true → endsWith ":point" k = false.
Proof.
  intros H. destruct (endsWith ":point" k) eqn:E; [|done].
  by rewrite (endsWith_point_not_end _ E) in H.
Qed.

(** X13. The end of a stroke whose group is in the table and not
    tombstoned makes that group the one the next undo removes, and
    leaves nothing to redo. *)
Theorem X13_completed_stroke_is_next_undo
    (uuid kind : string) (data : payload) (st : Server.state)
    (gr : Server.group) :
  endsWith ":end" kind = true →
  Server.groups st !! groupId data = Some gr →
  Server.g_tombstone gr = false →
  let st1 := snd (Server.addOp uuid kind data st) in
  fst (Server.performUndo st1) = Some (groupId data)
  ∧ Server.performRedo st1 = (None, st1).
Proof.
  intros Hk Hg Ht. unfold Server.addOp.
  rewrite (endsWith_end_not_start _ Hk), (endsWith_end_not_point _ Hk), Hk, Hg.
  simpl. unfold Server.performUndo, Server.performRedo. simpl.
  rewrite lookup_insert_eq. simpl. by rewrite Ht.
Qed.

Lemma X13_completed_stroke_is_next_undo_witness :
  let st := Server.run (take 3 oneStroke) Server.initial in
  let st1 := snd (Server.addOp "o3" "stroke:end" (endData "a" "g1") st) in
  fst (Server.performUndo st1) = Some (Some "g1")
  ∧ Server.performRedo st1 = (None, st1).
Proof.
  apply (X13_completed_stroke_is_next_undo "o3" "stroke:end"
           (endData "a" "g1") (Server.run (take 3 oneStroke) Server.initial)
           (Server.Group "stroke:start" (Some "a") [1; 2]%Z false));
    by vm_compute.
Defined.

Lemma undoLoop_fst_ext stack st st' :
  (∀ g, g ∈ stack →
     Server.g_tombstone <$> Server.groups st' !! g
     = Server.g_tombstone <$> Server.groups st !! g) →
  fst (Server.undoLoop stack st') = fst (Server.undoLoop stack st).
Proof.
  induction stack as [|g rest IH]; intros Hsame; simpl; [done|].
  pose proof (Hsame g (list_elem_of_here _ _)) as Hg.
  assert (Hrest : fst (Server.undoLoop rest st') = fst (Server.undoLoop rest st)).
  { apply IH. intros g' Hg'. apply Hsame. by right. }
  destruct (Server.groups st !! g) as [gr|], (Server.groups st' !! g) as [gr'|];
    simpl in Hg; try done.
  injection Hg as ->. by destruct (Server.g_tombstone gr).
Qed.

(** X14. Logging an operation that does not end a stroke and is not a
    clear-all marker (a start, under a group identity the undo stack does
    not hold, a point, or any other kind) never changes which group the
    next undo removes: a stroke in progress is not undoable. *)
Theorem X14_unfinished_stroke_is_not_undoable
    (uuid kind : string) (data : payload) (st : Server.state) :
  endsWith ":end" kind = false →
  kind ≠ "system:clear_all" →
  (endsWith ":start" kind = true → groupId data ∉ Server.undoStack st) →
  let st1 := snd (Server.addOp uuid kind data st) in
  Server.undoStack st1 = Server.undoStack st
  ∧ fst (Server.performUndo st1) = fst (Server.performUndo st).
Proof.
  intros Hend Hclear%String.eqb_neq Hstart st1.
  assert (Hstack : Server.undoStack st1 = Server.undoStack st).
  { subst st1. unfold Server.addOp. rewrite Hend, Hclear.
    by repeat case_match. }
  split; [done|]. unfold Server.performUndo. rewrite Hstack.
  apply undoLoop_fst_ext. intros g Hg. subst st1. unfold Server.addOp.
  rewrite Hend, Hclear.
  destruct (endsWith ":start" kind) eqn:Ks; simpl.
  { rewrite lookup_insert_ne; [done|]. intros <-. by apply Hstart. }
  destruct (endsWith ":point" kind); simpl; [|done].
  destruct (Server.groups st !! groupId data) as [gr|] eqn:E; simpl; [|done].
  rewrite lookup_insert. case_decide as Hd; [|done]. subst g. by rewrite E.
Qed.

Lemma X14_unfinished_stroke_is_not_undoable_witness :
  let st := Server.run oneStroke Server.initial in
  let st1 :=
    snd (Server.addOp "o4" "stroke:start" (startData "a" "g2" (Point 3 3 4)) st) in
  Server.undoStack st1 = Server.undoStack st
  ∧ fst (Server.performUndo st1) = fst (Server.performUndo st).
Proof.
  apply (X14_unfinished_stroke_is_not_undoable "o4" "stroke:start"
           (startData "a" "g2" (Point 3 3 4))
           (Server.run oneStroke Server.initial)).
  - reflexivity.
  - discriminate.
  - intros _. apply (bool_decide_unpack _). vm_compute. exact I.
Defined.

(** ** Who sets and who clears tombstones *)

Lemma flips_refl val l : flips val l l.
Proof. intros i o H. by left. Qed.

Lemma flips_trans val l1 l2 l3 :
  flips val l1 l2 → flips val l2 l3 → flips val l1 l3.
Proof.
  intros H12 H23 i o Ho.
  destruct (H12 i o Ho) as [H|H]; destruct (H23 _ _ H) as [H'|H']; auto.
Qed.

Lemma flips_snoc val l o : flips val l (l ++ [o]).
Proof. intros i o' H. left. by apply lookup_app_l_Some. Qed.

Lemma markFirst_flips val s l : flips val l (Server.markFirst val s l).
Proof.
  induction l as [|o r IH]; [done|].
  cbn [Server.markFirst]. case_match.
  - intros [|i] o' Hio; simpl in *; [|by left].
    injection Hio as <-. by right.
  - intros [|i] o' Hio; simpl in *; [by left|]. by apply IH.
Qed.

Lemma markAll_flips val ss l : flips val l (Server.markAll val ss l).
Proof.
  unfold Server.markAll. revert l.
  induction ss as [|s ss IH]; intros l; cbn [foldl]; [apply flips_refl|].
  eapply flips_trans; [apply markFirst_flips|apply IH].
Qed.

Lemma undoLoop_flips stack st :
  flips true (Server.ops st) (Server.ops (snd (Server.undoLoop stack st))).
Proof.
  induction stack as [|g rest IH]; simpl; [apply flips_refl|].
  destruct (Server.groups st !! g) as [gr|] eqn:E; [|done].
  destruct (Server.g_tombstone gr); simpl; [done|].
  unfold Server.setGroupTombstone. rewrite E. apply markAll_flips.
Qed.

Lemma redoLoop_flips stack st :
  flips false (Server.ops st) (Server.ops (snd (Server.redoLoop stack st))).
Proof.
  induction stack as [|g rest IH]; simpl; [apply flips_refl|].
  destruct (Server.groups st !! g) as [gr|] eqn:E; [|done].
  destruct (Server.g_tombstone gr); simpl; [|done].
  unfold Server.setGroupTombstone. rewrite E. apply markAll_flips.
Qed.

Lemma checkQuorum_flips uuid st :
  flips true (Server.ops st) (Server.ops (Server.checkQuorum uuid st)).
Proof.
  unfold Server.checkQuorum. case_match; [|apply flips_refl].
  rewrite finalizeClear_unfold. simpl. intros i o Ho.
  rewrite list_lookup_fmap, (lookup_app_l_Some _ _ _ _ Ho). simpl.
  case_match; auto.
Qed.

(** X15. Only a redo ever clears a tombstone, and only an undo or an
    event that can finalize a vote ever sets one: after any other event
    every logged operation is at its place, unchanged or, at most,
    changed in the one permitted direction. *)
Theorem X15_who_sets_and_clears_tombstones
    (st : Server.state) (e : Server.event) :
  (isRedo e = false → flips true (Server.ops st) (Server.ops (Server.step st e)))
  ∧ (mayTombstone e = false →
     flips false (Server.ops st) (Server.ops (Server.step st e))).
Proof.
  destruct e; cbn [Server.step isRedo mayTombstone]; split; try discriminate;
    intros _.
  - apply flips_refl.
  - apply flips_refl.
  - unfold Server.on_client_op. rewrite addOp_ops. apply flips_snoc.
  - unfold Server.on_client_op. rewrite addOp_ops. apply flips_snoc.
  - apply undoLoop_flips.
  - apply redoLoop_flips.
  - unfold Server.on_clear_all_request. case_match; [apply flips_refl|].
    apply (checkQuorum_flips uuid
             (Server.set_vote
                (Server.Vote true {[sid]} (Z.of_nat (size (Server.users st))))
                st)).
  - unfold Server.on_clear_all_vote. case_match; [apply flips_refl|].
    match goal with |- context [Server.checkQuorum ?u ?s] =>
      apply (checkQuorum_flips u s) end.
  - unfold Server.on_disconnect. cbn [Server.vote].
    case_match; [|apply flips_refl].
    match goal with |- context [Server.checkQuorum ?u ?s] =>
      apply (checkQuorum_flips u s) end.
Qed.

Lemma X15_who_sets_and_clears_tombstones_witness :
  let st := Server.run oneStroke Server.initial in
  (isRedo (Server.ClientUndo "a") = false →
   flips true (Server.ops st)
     (Server.ops (Server.step st (Server.ClientUndo "a"))))
  ∧ (mayTombstone (Server.ClientUndo "a") = false →
     flips false (Server.ops st)
       (Server.ops (Server.step st (Server.ClientUndo "a")))).
Proof.
  exact (X15_who_sets_and_clears_tombstones
           (Server.run oneStroke Server.initial) (Server.ClientUndo "a")).
Defined.

(** * Further properties of the replay engine *)

(** X16. A full replay run twice in a row leaves the state, surface
    included, that the first run left. *)
Theorem X16_full_replay_is_idempotent (st : Canvas.state) :
  Canvas.fullReplay (Canvas.fullReplay st) = Canvas.fullReplay st.
Proof.
  rewrite (fullReplay_replayOf (Canvas.fullReplay st)).
  assert (Hlog : Canvas.opLog (Canvas.fullReplay st) = Canvas.opLog st)
    by (by rewrite fullReplay_replayOf).
  rewrite Hlog. symmetry. apply fullReplay_replayOf.
Qed.

Lemma setOpLog_replayOf l st :
  Canvas.setOpLog l st = reframe l (Canvas.offscreen (replayOf l)) (replayOf l).
Proof. unfold Canvas.setOpLog. by rewrite fullReplay_replayOf. Qed.

(** X17. Loading a log forgets whatever the engine held before: the
    state after [setOpLog] depends on the loaded log only, previews and
    caches of the old state leave no trace. *)
Theorem X17_setOpLog_forgets_previous_state
    (l : list op) (st st' : Canvas.state) :
  Canvas.setOpLog l st = Canvas.setOpLog l st'
  ∧ Canvas.opLog (Canvas.setOpLog l st) = l
  ∧ Canvas.visible (Canvas.setOpLog l st)
    = Canvas.offscreen (Canvas.setOpLog l st).
Proof. by rewrite !setOpLog_replayOf. Qed.

Lemma foldl_replayStep_live s l :
  foldl Canvas.replayStep s (liveOps l) = foldl Canvas.replayStep s l.
Proof.
  unfold liveOps. revert s. induction l as [|o l IH]; intros s; [done|].
  destruct (op_tombstone o) eqn:Ht.
  - rewrite filter_cons_False by congruence. cbn [foldl].
    assert (Canvas.replayStep s o = s) as ->
      by (unfold Canvas.replayStep; by rewrite Ht).
    apply IH.
  - rewrite filter_cons_True by done. cbn [foldl]. apply IH.
Qed.

Lemma replayOf_live l :
  replayOf l = reframe l [] (replayOf (liveOps l)).
Proof.
  unfold replayOf. rewrite <- (foldl_replayStep_live _ l).
  change (Canvas.State l [] [] ∅ ∅)
    with (reframe l [] (Canvas.State (liveOps l) [] [] ∅ ∅)).
  by rewrite foldl_replayStep_reframe.
Qed.

(** X18. Tombstoned operations do not render: a replay of a log leaves
    the surface and the caches that a replay of its untombstoned
    operations alone leaves. *)
Theorem X18_replay_ignores_tombstoned (l : list op) (st : Canvas.state) :
  let a := Canvas.setOpLog l st in
  let b := Canvas.setOpLog (liveOps l) st in
  Canvas.offscreen a = Canvas.offscreen b
  ∧ Canvas.visible a = Canvas.visible b
  ∧ Canvas.lastSeg a = Canvas.lastSeg b
  ∧ Canvas.currBrush a = Canvas.currBrush b.
Proof.
  intros a b. subst a b. rewrite !setOpLog_replayOf, (replayOf_live l). done.
Qed.

(** ** One user's strokes and the others' *)

Lemma applyOpToContext_other_user o u st :
  userId (op_data o) ≠ Some u →
  Canvas.lastSeg (Canvas.applyOpToContext o st) !! u = Canvas.lastSeg st !! u
  ∧ Canvas.currBrush (Canvas.applyOpToContext o st) !! u
    = Canvas.currBrush st !! u.
Proof.
  intros Hne. unfold Canvas.applyOpToContext.
  destruct (userId (op_data o)) as [v|] eqn:Ev; [|done].
  assert (v ≠ u) by congruence.
  repeat case_match; simpl; unfold Canvas.setLast;
    repeat case_match; by rewrite ?lookup_insert_ne, ?lookup_delete_ne.
Qed.

Lemma applyOpToContext_same_user o u s s' :
  userId (op_data o) = Some u →
  Canvas.lastSeg s !! u = Canvas.lastSeg s' !! u →
  Canvas.currBrush s !! u = Canvas.currBrush s' !! u →
  Canvas.lastSeg (Canvas.applyOpToContext o s) !! u
  = Canvas.lastSeg (Canvas.applyOpToContext o s') !! u
  ∧ Canvas.currBrush (Canvas.applyOpToContext o s) !! u
    = Canvas.currBrush (Canvas.applyOpToContext o s') !! u.
Proof.
  intros Hu Hl Hb. unfold Canvas.applyOpToContext. rewrite Hu.
  repeat case_match; simpl;
    by rewrite ?setLast_lookup, ?lookup_insert_eq, ?lookup_delete_eq.
Qed.

Lemma foldl_replayStep_opsOf u l s s' :
  Canvas.lastSeg s !! u = Canvas.lastSeg s' !! u →
  Canvas.currBrush s !! u = Canvas.currBrush s' !! u →
  Canvas.lastSeg (foldl Canvas.replayStep s l) !! u
  = Canvas.lastSeg (foldl Canvas.replayStep s' (opsOf u l)) !! u
  ∧ Canvas.currBrush (foldl Canvas.replayStep s l) !! u
    = Canvas.currBrush (foldl Canvas.replayStep s' (opsOf u l)) !! u.
Proof.
  unfold opsOf. revert s s'.
  induction l as [|o l IH]; intros s s' Hl Hb; [done|].
  destruct (decide (userId (op_data o) = Some u)) as [Hu|Hu].
  - rewrite filter_cons_True by done. simpl. apply IH;
      unfold Canvas.replayStep; destruct (op_tombstone o); try done;
      by apply applyOpToContext_same_user.
  - rewrite filter_cons_False by done. simpl. apply IH;
      unfold Canvas.replayStep; destruct (op_tombstone o); try done;
      (etrans; [by apply applyOpToContext_other_user|done]).
Qed.

(** X19. Strokes of different users never contaminate each other: after
    a replay, the last point and the brush cached for a user are those a
    replay of that user's operations alone would cache, however the
    operations of the others are interleaved with them. *)
Theorem X19_user_cache_depends_on_own_operations (u : string) (l : list op) :
  Canvas.lastSeg (replayOf l) !! u = Canvas.lastSeg (replayOf (opsOf u l)) !! u
  ∧ Canvas.currBrush (replayOf l) !! u
    = Canvas.currBrush (replayOf (opsOf u l)) !! u.
Proof.
  unfold replayOf.
  change (Canvas.State (opsOf u l) [] [] ∅ ∅)
    with (reframe (opsOf u l) [] (Canvas.State l [] [] ∅ ∅)).
  rewrite foldl_replayStep_reframe. simpl.
  by apply foldl_replayStep_opsOf.
Qed.

(** ** The brush of a stroke *)

Lemma applyOpToContext_start o uid st :
  endsWith ":start" (op_kind o) = true →
  userId (op_data o) = Some uid → uid ≠ "" →
  Canvas.applyOpToContext o st
  = let b := default (Brush "#222" 4 (Canvas.modeOf (op_kind o)))
               (d_brush (op_data o)) in
    Canvas.State (Canvas.opLog st) (Canvas.offscreen st) (Canvas.visible st)
      (Canvas.setLast uid (p (op_data o)) (Canvas.lastSeg st))
      (<[uid := Brush (color b) (width b) (Canvas.modeOf (op_kind o))]>
         (Canvas.currBrush st)).
Proof.
  intros Hk Hu Hne. unfold Canvas.applyOpToContext. rewrite Hu. simpl.
  apply String.eqb_neq in Hne. by rewrite Hne, Hk.
Qed.

Lemma applyOpToContext_end o uid st :
  endsWith ":end" (op_kind o) = true →
  userId (op_data o) = Some uid → uid ≠ "" →
  Canvas.applyOpToContext o st
  = Canvas.State (Canvas.opLog st) (Canvas.offscreen st) (Canvas.visible st)
      (delete uid (Canvas.lastSeg st)) (delete uid (Canvas.currBrush st)).
Proof.
  intros Hk Hu Hne. unfold Canvas.applyOpToContext. rewrite Hu. simpl.
  apply String.eqb_neq in Hne.
  by rewrite Hne, (endsWith_end_not_start _ Hk), (endsWith_end_not_point _ Hk), Hk.
Qed.

(** X20. Width, color and mode of a segment come from the start of the
    stroke: after a start by a user, a point of that user is painted from
    the start's point with the start's brush, destructively exactly when
    the kind of the start begins with [erase]; the mode field of the
    brush sent and the kind of the point play no part. *)
Theorem X20_segment_uses_brush_of_start
    (s pt : op) (u : string) (b : brush) (q0 q1 : point) (st : Canvas.state) :
  endsWith ":start" (op_kind s) = true →
  endsWith ":point" (op_kind pt) = true →
  userId (op_data s) = Some u → userId (op_data pt) = Some u → u ≠ "" →
  d_brush (op_data s) = Some b →
  p (op_data s) = Some q0 → p (op_data pt) = Some q1 →
  Canvas.offscreen
    (Canvas.applyOpToContext pt (Canvas.applyOpToContext s st))
  = Canvas.offscreen st
    ++ [if startsWith "erase" (op_kind s)
        then Canvas.Stroke "destination-out" "rgba(0,0,0,1)" (width b)
               (px q0, py q0) (px q1, py q1)
        else Canvas.Stroke "source-over" (color b) (width b)
               (px q0, py q0) (px q1, py q1)].
Proof.
  intros Hs Hp Hus Hup Hne Hb Hq0 Hq1.
  rewrite (applyOpToContext_point pt u _ Hp Hup Hne).
  rewrite (applyOpToContext_start s u _ Hs Hus Hne).
  cbn [Canvas.offscreen Canvas.lastSeg Canvas.currBrush].
  rewrite setLast_lookup, lookup_insert_eq, Hb, Hq0, Hq1.
  unfold Canvas.modeOf. by destruct (startsWith "erase" (op_kind s)).
Qed.

Lemma X20_segment_uses_brush_of_start_witness :
  Canvas.offscreen
    (Canvas.applyOpToContext
       (Op 2 "o2" "stroke:point" (pointData "a" "g1" (Point 5 5 1)) false)
       (Canvas.applyOpToContext
          (Op 1 "o1" "erase:start"
             (Payload (Some "a") (Some "g1") (Some (Point 0 0 0))
                (Some (Brush "#f00" 9 "brush")) None) false)
          Canvas.initial))
  = Canvas.offscreen Canvas.initial
    ++ [if startsWith "erase" "erase:start"
        then Canvas.Stroke "destination-out" "rgba(0,0,0,1)" 9 (0, 0) (5, 5)
        else Canvas.Stroke "source-over" "#f00" 9 (0, 0) (5, 5)]%Z.
Proof.
  apply (X20_segment_uses_brush_of_start
           (Op 1 "o1" "erase:start"
              (Payload (Some "a") (Some "g1") (Some (Point 0 0 0))
                 (Some (Brush "#f00" 9 "brush")) None) false)
           (Op 2 "o2" "stroke:point" (pointData "a" "g1" (Point 5 5 1)) false)
           "a" (Brush "#f00" 9 "brush") (Point 0 0 0) (Point 5 5 1)
           Canvas.initial); try reflexivity.
  discriminate.
Defined.

(** X21. The end of a stroke cuts the line: a point of the same user
    that follows an end is not joined to anything and paints nothing. *)
Theorem X21_point_after_end_paints_nothing
    (e pt : op) (u : string) (st : Canvas.state) :
  endsWith ":end" (op_kind e) = true →
  endsWith ":point" (op_kind pt) = true →
  userId (op_data e) = Some u → userId (op_data pt) = Some u → u ≠ "" →
  Canvas.offscreen
    (Canvas.applyOpToContext pt (Canvas.applyOpToContext e st))
  = Canvas.offscreen st.
Proof.
  intros He Hp Hue Hup Hne.
  rewrite (applyOpToContext_point pt u _ Hp Hup Hne).
  rewrite (applyOpToContext_end e u _ He Hue Hne).
  cbn [Canvas.offscreen Canvas.lastSeg Canvas.currBrush].
  by rewrite lookup_delete_eq.
Qed.

Lemma X21_point_after_end_paints_nothing_witness :
  Canvas.offscreen
    (Canvas.applyOpToContext
       (Op 4 "o4" "stroke:point" (pointData "bob" "gb" (Point 7 7 9)) false)
       (Canvas.applyOpToContext
          (Op 3 "o3" "stroke:end" (endData "bob" "gb") false) bobDrawing))
  = Canvas.offscreen bobDrawing.
Proof.
  apply (X21_point_after_end_paints_nothing
           (Op 3 "o3" "stroke:end" (endData "bob" "gb") false)
           (Op 4 "o4" "stroke:point" (pointData "bob" "gb" (Point 7 7 9)) false)
           "bob" bobDrawing); try reflexivity.
  discriminate.
Defined.

(** ** Receiving and releasing *)

Lemma replayOf_snoc_tombstoned l o :
  op_tombstone o = true →
  replayOf (l ++ [o]) = reframe (l ++ [o]) [] (replayOf l).
Proof.
  intros Ht. unfold replayOf. rewrite foldl_app. simpl.
  unfold Canvas.replayStep at 1. rewrite Ht.
  change (Canvas.State (l ++ [o]) [] [] ∅ ∅)
    with (reframe (l ++ [o]) [] (Canvas.State l [] [] ∅ ∅)).
  by rewrite foldl_replayStep_reframe.
Qed.

(** X22. On an engine in sync with its log, receiving an operation that
    is already tombstoned only logs it: surface and caches stay as they
    are. *)
Theorem X22_tombstoned_operation_is_only_logged
    (o : op) (st : Canvas.state) :
  Canvas.inSync st → op_tombstone o = true →
  Canvas.applyOp o st = Canvas.pushOp o st.
Proof.
  intros Hsync Ht. unfold Canvas.applyOp. rewrite Ht. simpl.
  rewrite fullReplay_replayOf.
  change (Canvas.opLog (Canvas.pushOp o st)) with (Canvas.opLog st ++ [o]).
  rewrite replayOf_snoc_tombstoned by done.
  unfold Canvas.inSync in Hsync. rewrite fullReplay_replayOf in Hsync.
  unfold Canvas.pushOp.
  rewrite <- (f_equal Canvas.offscreen Hsync), <- (f_equal Canvas.visible Hsync),
    <- (f_equal Canvas.lastSeg Hsync), <- (f_equal Canvas.currBrush Hsync).
  done.
Qed.

Lemma X22_tombstoned_operation_is_only_logged_witness :
  Canvas.applyOp (set_op_tombstone true bobNext) bobDrawing
  = Canvas.pushOp (set_op_tombstone true bobNext) bobDrawing.
Proof.
  apply (X22_tombstoned_operation_is_only_logged
           (set_op_tombstone true bobNext) bobDrawing).
  - vm_compute. reflexivity.
  - reflexivity.
Defined.

Lemma applyOp_end o st :
  endsWith ":end" (op_kind o) = true →
  Canvas.applyOp o st = Canvas.fullReplay (Canvas.pushOp o st).
Proof.
  intros Hk. unfold Canvas.applyOp. by rewrite Hk, !orb_true_r.
Qed.

(** X23. Releasing the pointer while drawing logs the local end and
    replays the log in full: whatever previews were on the surface, the
    engine is in sync with its log afterwards, and the gesture is over. *)
Theorem X23_pointer_up_resynchronizes
    (myId : option string) (st : Canvas.state) (h : Canvas.pointer) :
  Canvas.drawing h = true →
  let c := Canvas.up myId (st, h) in
  Canvas.inSync c.1
  ∧ Canvas.opLog c.1
    = Canvas.opLog st
      ++ [Op (-1) "localend" "stroke:end"
            (Payload myId (Canvas.currentGroup h) None None None) false]
  ∧ Canvas.drawing c.2 = false ∧ Canvas.currentGroup c.2 = None.
Proof.
  intros Hd. unfold Canvas.up. rewrite Hd. cbn [negb fst snd].
  rewrite applyOp_end by reflexivity.
  split; [apply inSync_fullReplay|]. split; [|done].
  by rewrite fullReplay_replayOf.
Qed.

Lemma X23_pointer_up_resynchronizes_witness :
  let c := Canvas.up (Some "me") previewing in
  Canvas.inSync c.1
  ∧ Canvas.opLog c.1
    = Canvas.opLog previewing.1
      ++ [Op (-1) "localend" "stroke:end"
            (Payload (Some "me") (Canvas.currentGroup previewing.2)
               None None None) false]
  ∧ Canvas.drawing c.2 = false ∧ Canvas.currentGroup c.2 = None.
Proof.
  apply (X23_pointer_up_resynchronizes (Some "me") previewing.1 previewing.2).
  reflexivity.
Defined.

(** ** Only points paint *)

Lemma drawSegment_length g p0 p1 w c m :
  (length (Canvas.drawSegment g p0 p1 w c m) ≤ length g + 1)%nat.
Proof.
  unfold Canvas.drawSegment. repeat case_match; rewrite ?length_app; simpl; lia.
Qed.

Lemma applyOpToContext_length o s :
  (length (Canvas.offscreen (Canvas.applyOpToContext o s))
   ≤ length (Canvas.offscreen s)
     + (if endsWith ":point" (op_kind o) then 1 else 0))%nat.
Proof.
  unfold Canvas.applyOpToContext.
  destruct (userId (op_data o)) as [u|]; [|lia].
  destruct (negb (truthy (Some u))); [lia|].
  destruct (endsWith ":start" (op_kind o)); simpl; [lia|].
  destruct (endsWith ":point" (op_kind o)); simpl.
  - apply drawSegment_length.
  - case_match; simpl; lia.
Qed.

Lemma foldl_replayStep_length l s :
  (length (Canvas.offscreen (foldl Canvas.replayStep s l))
   ≤ length (Canvas.offscreen s) + length (livePoints l))%nat.
Proof.
  unfold livePoints. revert s.
  induction l as [|o l IH]; intros s; simpl; [lia|].
  etrans; [apply IH|].
  pose proof (applyOpToContext_length o s) as Hstep.
  unfold Canvas.replayStep.
  destruct (op_tombstone o) eqn:Ht.
  - rewrite filter_cons_False by (intros [? _]; congruence). lia.
  - destruct (endsWith ":point" (op_kind o)) eqn:Hk.
    + rewrite filter_cons_True by done. simpl. lia.
    + rewrite filter_cons_False by (intros [_ ?]; congruence). lia.
Qed.

(** X24. Only untombstoned point operations paint, one segment each at
    most: after a full replay the surface holds no more strokes than the
    log has live points. *)
Theorem X24_strokes_bounded_by_live_points (st : Canvas.state) :
  (length (Canvas.offscreen (Canvas.fullReplay st))
   ≤ length (livePoints (Canvas.opLog st)))%nat.
Proof.
  rewrite fullReplay_replayOf. simpl. unfold replayOf.
  apply (foldl_replayStep_length (Canvas.opLog st)
           (Canvas.State (Canvas.opLog st) [] [] ∅ ∅)).
Qed.

(** ** Eraser gestures, from the pointer to the replay *)

(** X25. A gesture whose press is accepted, made with the handlers'
    brush in eraser mode, goes out as [erase:start] followed by
    [stroke:point] and [stroke:end] under one group identity, whatever the
    socket identity: only the start carries a brush for [emitFn] to look
    at.  When the socket identity is available (truthy), a replay of the
    start and the point as logged still erases: it paints one destructive
    segment of the brush's width between the two pointer positions; when
    it is not, the operations carry no user and the replay paints
    nothing. *)
Theorem X25_eraser_gesture_end_to_end
    (myId : option string) (uuid : string) (e0 e1 : Canvas.pointerEvent)
    (st : Canvas.state) (h : Canvas.pointer) (s0 s1 : Z) (i0 i1 : string) :
  Canvas.isMouse e0 && negb (Canvas.button e0 =? 0)%Z = false →
  mode (Canvas.ph_brush h) = "eraser" →
  let h1 := (Canvas.down myId uuid e0 (st, h)).2 in
  let h2 := (Canvas.move myId e1 (st, h1)).2 in
  ∃ d0 d1 d2,
    Outbox.sent (Handlers.downEmit myId uuid e0 h) = Some ("erase:start", d0)
    ∧ Outbox.sent (Handlers.moveEmit myId e1 h1) = Some ("stroke:point", d1)
    ∧ Outbox.sent (Handlers.upEmit myId h2) = Some ("stroke:end", d2)
    ∧ groupId d0 = Some uuid ∧ groupId d1 = Some uuid ∧ groupId d2 = Some uuid
    ∧ render [Op s0 i0 "erase:start" d0 false; Op s1 i1 "stroke:point" d1 false]
      = if truthy myId
        then [Canvas.Stroke "destination-out" "rgba(0,0,0,1)"
                (width (Canvas.ph_brush h))
                (px (Canvas.pointerPos e0), py (Canvas.pointerPos e0))
                (px (Canvas.pointerPos e1), py (Canvas.pointerPos e1))]
        else [].
Proof.
  intros Hbtn Hmode h1 h2. subst h1 h2.
  unfold Canvas.down, Canvas.move, Handlers.downEmit, Handlers.moveEmit,
    Handlers.upEmit. rewrite Hbtn. simpl.
  unfold Main.emitFn. simpl. rewrite Hmode. simpl.
  do 3 eexists. do 6 (split; [reflexivity|]).
  unfold render. rewrite setOpLog_replayOf.
  unfold replayOf, reframe. cbn [foldl Canvas.offscreen].
  unfold Canvas.replayStep. cbn [op_tombstone].
  destruct (truthy myId) eqn:Hid.
  - destruct myId as [u|]; [|done].
    assert (Hne : u ≠ "").
    { intros ->. discriminate Hid. }
    rewrite (applyOpToContext_point _ u) by done.
    rewrite (applyOpToContext_start _ u) by done.
    cbn [Canvas.offscreen Canvas.lastSeg Canvas.currBrush op_data op_kind
         p d_brush default].
    rewrite setLast_lookup, lookup_insert_eq. reflexivity.
  - by rewrite !applyOpToContext_no_user.
Qed.

Lemma X25_eraser_gesture_end_to_end_witness :
  let h := Handlers.setMode "eraser" None (Some 9%Z)
             (Canvas.initPointerHandlers (Brush "#222" 4 "brush")) in
  let e0 := Canvas.PointerEvent true 0 (Point 10 10 2) in
  let e1 := Canvas.PointerEvent true 0 (Point 20 20 3) in
  let h1 := (Canvas.down (Some "me") "gm" e0 (Canvas.initial, h)).2 in
  let h2 := (Canvas.move (Some "me") e1 (Canvas.initial, h1)).2 in
  ∃ d0 d1 d2,
    Outbox.sent (Handlers.downEmit (Some "me") "gm" e0 h)
    = Some ("erase:start", d0)
    ∧ Outbox.sent (Handlers.moveEmit (Some "me") e1 h1)
      = Some ("stroke:point", d1)
    ∧ Outbox.sent (Handlers.upEmit (Some "me") h2) = Some ("stroke:end", d2)
    ∧ groupId d0 = Some "gm" ∧ groupId d1 = Some "gm" ∧ groupId d2 = Some "gm"
    ∧ render [Op 1 "o1" "erase:start" d0 false; Op 2 "o2" "stroke:point" d1 false]
      = if truthy (Some "me")
        then [Canvas.Stroke "destination-out" "rgba(0,0,0,1)"
                (width (Canvas.ph_brush h))
                (px (Canvas.pointerPos e0), py (Canvas.pointerPos e0))
                (px (Canvas.pointerPos e1), py (Canvas.pointerPos e1))]
        else [].
Proof.
  apply (X25_eraser_gesture_end_to_end (Some "me") "gm"
           (Canvas.PointerEvent true 0 (Point 10 10 2))
           (Canvas.PointerEvent true 0 (Point 20 20 3))
           Canvas.initial
           (Handlers.setMode "eraser" None (Some 9%Z)
              (Canvas.initPointerHandlers (Brush "#222" 4 "brush")))
           1 2 "o1" "o2");
    reflexivity.
Defined.

(** X26. With no gesture in progress, pressing and then moving the
    pointer adds exactly one [source-over] segment in the color and width
    of the handlers' brush to the surface, whatever the mode of that
    brush, eraser included, when the press is accepted (it is not a mouse
    press with a button other than the left one) and the socket identity
    is available (truthy); otherwise pressing and moving paints
    nothing. *)
Theorem X26_local_preview_paints_source_over
    (myId : option string) (uuid : string) (e0 e1 : Canvas.pointerEvent)
    (st : Canvas.state) (h : Canvas.pointer) :
  Canvas.drawing h = false →
  Canvas.offscreen (Canvas.move myId e1 (Canvas.down myId uuid e0 (st, h))).1
  = if negb (Canvas.isMouse e0 && negb (Canvas.button e0 =? 0)%Z)
       && truthy myId
    then Canvas.offscreen st
         ++ [Canvas.Stroke "source-over" (color (Canvas.ph_brush h))
               (width (Canvas.ph_brush h))
               (px (Canvas.pointerPos e0), py (Canvas.pointerPos e0))
               (px (Canvas.pointerPos e1), py (Canvas.pointerPos e1))]
    else Canvas.offscreen st.
Proof.
  intros Hidle. unfold Canvas.down.
  destruct (Canvas.isMouse e0 && negb (Canvas.button e0 =? 0)%Z) eqn:Hbtn.
  { unfold Canvas.move. by rewrite Hidle. }
  unfold Canvas.move. cbn [Canvas.drawing negb fst andb].
  match goal with |- context [Canvas.applyOp ?o st] =>
    assert (Canvas.applyOp o st
            = Canvas.blit (Canvas.applyOpToContext o (Canvas.pushOp o st)))
      as -> by reflexivity end.
  cbn [Canvas.blit Canvas.offscreen].
  destruct (truthy myId) eqn:Hid.
  - destruct myId as [u|]; [|done].
    assert (Hne : u ≠ "").
    { intros ->. discriminate Hid. }
    rewrite (applyOpToContext_point _ u) by done.
    cbn [Canvas.offscreen Canvas.lastSeg Canvas.currBrush Canvas.blit].
    rewrite (applyOpToContext_start _ u) by done.
    cbn [Canvas.offscreen Canvas.lastSeg Canvas.currBrush Canvas.pushOp
         op_data op_kind p d_brush default].
    rewrite setLast_lookup, lookup_insert_eq. reflexivity.
  - rewrite applyOpToContext_no_user by done.
    cbn [Canvas.blit Canvas.offscreen].
    by rewrite applyOpToContext_no_user.
Qed.

Lemma X26_local_preview_paints_source_over_witness :
  Canvas.offscreen
    (Canvas.move (Some "me") (Canvas.PointerEvent true 0 (Point 20 20 3))
       (Canvas.down (Some "me") "gm"
          (Canvas.PointerEvent true 0 (Point 10 10 2))
          (bobDrawing, Canvas.initPointerHandlers (Brush "#222" 4 "eraser")))).1
  = Canvas.offscreen bobDrawing
    ++ [Canvas.Stroke "source-over" "#222" 4 (10, 10) (20, 20)]%Z.
Proof.
  apply (X26_local_preview_paints_source_over (Some "me") "gm"
           (Canvas.PointerEvent true 0 (Point 10 10 2))
           (Canvas.PointerEvent true 0 (Point 20 20 3))
           bobDrawing (Canvas.initPointerHandlers (Brush "#222" 4 "eraser"))).
  reflexivity.
Defined.

(** Neither a right-button press nor a press before the socket has an
    identity paints anything. *)
Example refused_or_anonymous_press_paints_nothing :
  Canvas.offscreen
    (Canvas.move (Some "me") (Canvas.PointerEvent true 0 (Point 20 20 3))
       (Canvas.down (Some "me") "gm"
          (Canvas.PointerEvent true 2 (Point 10 10 2))
          (bobDrawing, Canvas.initPointerHandlers (Brush "#222" 4 "brush")))).1
  = Canvas.offscreen bobDrawing
  ∧ Canvas.offscreen
      (Canvas.move None (Canvas.PointerEvent true 0 (Point 20 20 3))
         (Canvas.down None "gm"
            (Canvas.PointerEvent true 0 (Point 10 10 2))
            (bobDrawing, Canvas.initPointerHandlers (Brush "#222" 4 "brush")))).1
    = Canvas.offscreen bobDrawing.
Proof. by vm_compute. Qed.

(** ** Groups are formed by suffix and identity *)

Lemma addOp_start uuid kind data st :
  endsWith ":start" kind = true →
  snd (Server.addOp uuid kind data st)
  = Server.State (Server.seq st + 1)
      (Server.ops st ++ [Op (Server.seq st + 1) uuid kind data false])
      (<[groupId data :=
           Server.Group kind (userId data) [(Server.seq st + 1)%Z] false]>
         (Server.groups st))
      (Server.undoStack st) (Server.redoStack st) (Server.users st)
      (Server.vote st).
Proof. intros Hk. unfold Server.addOp. by rewrite Hk. Qed.

Lemma addOp_point uuid kind data st gr :
  endsWith ":point" kind = true →
  Server.groups st !! groupId data = Some gr →
  snd (Server.addOp uuid kind data st)
  = Server.State (Server.seq st + 1)
      (Server.ops st ++ [Op (Server.seq st + 1) uuid kind data false])
      (<[groupId data := Server.push_g_seq (Server.seq st + 1) gr]>
         (Server.groups st))
      (Server.undoStack st) (Server.redoStack st) (Server.users st)
      (Server.vote st).
Proof.
  intros Hk Hg. unfold Server.addOp.
  by rewrite (endsWith_point_not_start _ Hk), Hk, Hg.
Qed.

Lemma addOp_end uuid kind data st gr :
  endsWith ":end" kind = true →
  Server.groups st !! groupId data = Some gr →
  snd (Server.addOp uuid kind data st)
  = Server.State (Server.seq st + 1)
      (Server.ops st ++ [Op (Server.seq st + 1) uuid kind data false])
      (<[groupId data := Server.push_g_seq (Server.seq st + 1) gr]>
         (Server.groups st))
      (groupId data :: Server.undoStack st) [] (Server.users st)
      (Server.vote st).
Proof.
  intros Hk Hg. unfold Server.addOp.
  by rewrite (endsWith_end_not_start _ Hk), (endsWith_end_not_point _ Hk), Hk, Hg.
Qed.

(** X27. A start, a point and an end that carry the same group identity
    form one group whatever the prefixes of their kinds ([erase:start]
    followed by [stroke:point] and [stroke:end], say): the group lists
    the three sequence numbers in order, is on top of the undo stack, and
    is what the next undo removes. *)
Theorem X27_one_group_whatever_the_prefixes
    (st : Server.state) (u0 u1 u2 k0 k1 k2 : string) (d0 d1 d2 : payload) :
  endsWith ":start" k0 = true →
  endsWith ":point" k1 = true →
  endsWith ":end" k2 = true →
  groupId d1 = groupId d0 → groupId d2 = groupId d0 →
  let st3 :=
    snd (Server.addOp u2 k2 d2
           (snd (Server.addOp u1 k1 d1 (snd (Server.addOp u0 k0 d0 st))))) in
  let n := Server.seq st in
  Server.groups st3 !! groupId d0
  = Some (Server.Group k0 (userId d0) [n + 1; n + 1 + 1; n + 1 + 1 + 1]%Z false)
  ∧ Server.undoStack st3 = groupId d0 :: Server.undoStack st
  ∧ Server.redoStack st3 = []
  ∧ fst (Server.performUndo st3) = Some (groupId d0).
Proof.
  intros H0 H1 H2 E1 E2 st3 n. subst st3 n.
  rewrite (addOp_start u0 k0 d0 st H0).
  erewrite (addOp_point u1 k1 d1); [|done|].
  2:{ cbn [Server.groups]. rewrite E1. apply lookup_insert_eq. }
  erewrite (addOp_end u2 k2 d2); [|done|].
  2:{ cbn [Server.groups]. rewrite E2, E1. apply lookup_insert_eq. }
  cbn [Server.groups Server.seq Server.undoStack Server.redoStack].
  rewrite E2, E1, !insert_insert_eq.
  unfold Server.performUndo.
  cbn [Server.undoStack Server.undoLoop Server.groups].
  rewrite lookup_insert_eq. done.
Qed.

Lemma X27_one_group_whatever_the_prefixes_witness :
  let st := Server.initial in
  let d0 := startData "a" "g1" (Point 0 0 0) in
  let st3 :=
    snd (Server.addOp "o3" "stroke:end" (endData "a" "g1")
           (snd (Server.addOp "o2" "stroke:point" (pointData "a" "g1" (Point 1 1 1))
                   (snd (Server.addOp "o1" "erase:start" d0 st))))) in
  let n := Server.seq st in
  Server.groups st3 !! groupId d0
  = Some (Server.Group "erase:start" (userId d0)
            [n + 1; n + 1 + 1; n + 1 + 1 + 1]%Z false)
  ∧ Server.undoStack st3 = groupId d0 :: Server.undoStack st
  ∧ Server.redoStack st3 = []
  ∧ fst (Server.performUndo st3) = Some (groupId d0).
Proof.
  apply (X27_one_group_whatever_the_prefixes Server.initial
           "o1" "o2" "o3" "erase:start" "stroke:point" "stroke:end"
           (startData "a" "g1" (Point 0 0 0))
           (pointData "a" "g1" (Point 1 1 1)) (endData "a" "g1"));
    reflexivity.
Defined.

(** ** Group identities in the log *)

Lemma mint_truthy uuidG kind data :
  uuidG ≠ "" →
  startsWith "stroke:" kind || startsWith "erase:" kind = true →
  truthy (groupId (Server.mint uuidG kind data)) = true.
Proof.
  intros Hne%String.eqb_neq Hk. unfold Server.mint. rewrite Hk. simpl.
  destruct (truthy (groupId data)) eqn:Ht; simpl; [done|]. by rewrite Hne.
Qed.

Lemma step_appended st e :
  coreOf <$> Server.ops (Server.step st e) = coreOf <$> Server.ops st
  ∨ (∃ uuid, coreOf <$> Server.ops (Server.step st e)
       = (coreOf <$> Server.ops st)
         ++ [coreOf (clearMarker (Server.seq st + 1) uuid)])
  ∨ (∃ sid uuidG uuidO kind data,
       e = Server.ClientOp sid uuidG uuidO kind data
       ∧ coreOf <$> Server.ops (Server.step st e)
         = (coreOf <$> Server.ops st)
           ++ [(Server.seq st + 1, uuidO, kind, Server.mint uuidG kind data)%Z]).
Proof.
  assert (Hq : ∀ uuid s, Server.seq s = Server.seq st →
            Server.ops s = Server.ops st →
            coreOf <$> Server.ops (Server.checkQuorum uuid s)
            = coreOf <$> Server.ops st
            ∨ (∃ m, coreOf <$> Server.ops (Server.checkQuorum uuid s)
                 = (coreOf <$> Server.ops st)
                   ++ [coreOf (clearMarker (Server.seq st + 1) m)])).
  { intros uuid s Hs Ho.
    destruct (checkQuorum_log uuid s) as [[H1 _]|[H1 _]]; [left|right].
    - by rewrite H1, Ho.
    - exists uuid. by rewrite H1, Ho, Hs. }
  destruct e; cbn [Server.step].
  - by left.
  - right; right. exists sid, uuidG, uuidO, kind, data. split; [done|].
    unfold Server.on_client_op. by rewrite addOp_ops, fmap_app.
  - left. apply undoLoop_core.
  - left. apply redoLoop_core.
  - unfold Server.on_clear_all_request. case_match; [by left|].
    destruct (Hq uuid (Server.set_vote
      (Server.Vote true {[sid]} (Z.of_nat (size (Server.users st)))) st)
      eq_refl eq_refl) as [?| ?]; auto.
  - unfold Server.on_clear_all_vote. case_match; [by left|].
    match goal with |- context [Server.checkQuorum ?u ?s] =>
      destruct (Hq u s eq_refl eq_refl) as [?| ?] end; auto.
  - unfold Server.on_disconnect. cbn [Server.vote]. case_match; [|by left].
    match goal with |- context [Server.checkQuorum ?u ?s] =>
      destruct (Hq u s eq_refl eq_refl) as [?| ?] end; auto.
Qed.

(** X28. As long as the identities minted for groups are not empty,
    every logged operation of a stroke or erase kind carries a group
    identity, at every reachable state. *)
Theorem X28_stroke_operations_carry_group_identity
    (es : list Server.event) (o : op) :
  Forall mintsNonEmpty es →
  o ∈ Server.ops (Server.run es Server.initial) →
  startsWith "stroke:" (op_kind o) || startsWith "erase:" (op_kind o) = true →
  truthy (groupId (op_data o)) = true.
Proof.
  intros Hes Ho Hk.
  assert (Hall : Forall (fun c => isStrokeOp c = true → truthy (groupId c.2) = true)
                   (coreOf <$> Server.ops (Server.run es Server.initial))).
  { clear o Ho Hk. induction es as [|e es IH] using rev_ind; [constructor|].
    apply Forall_app in Hes as [Hes He]. rewrite Forall_singleton in He.
    rewrite run_snoc.
    destruct (step_appended (Server.run es Server.initial) e)
      as [->|[(uuid & ->)|(sid & uuidG & uuidO & kind & data & -> & ->)]].
    - by apply IH.
    - apply Forall_app. split; [by apply IH|].
      constructor; [|constructor]. discriminate.
    - apply Forall_app. split; [by apply IH|]. constructor; [|constructor].
      unfold isStrokeOp. simpl. intros Hk. by apply mint_truthy. }
  rewrite Forall_forall in Hall. apply (Hall (coreOf o)); [|done].
  apply list_elem_of_fmap. eauto.
Qed.

Lemma X28_stroke_operations_carry_group_identity_witness :
  truthy (groupId (op_data
    (Op 1 "o1" "stroke:point"
       (Payload (Some "a") (Some "g-1") (Some (Point 1 2 3)) None None) false)))
  = true.
Proof.
  apply (X28_stroke_operations_carry_group_identity
           [Server.Connection "a";
            Server.ClientOp "a" "g-1" "o1" "stroke:point"
              (Payload (Some "a") None (Some (Point 1 2 3)) None None)]).
  - repeat constructor. discriminate.
  - apply (bool_decide_unpack _). vm_compute. exact I.
  - reflexivity.
Defined.

(** ** The cursor overlay *)

Lemma placed_lookup (elems : gmap string Cursors.elem)
    (cs : gmap string (Z * Z)) (k : string) :
  map_fold (fun uid pos acc => <[uid := Cursors.Elem pos.1 pos.2]> acc) elems cs
    !! k
  = match cs !! k with
    | Some pos => Some (Cursors.Elem pos.1 pos.2)
    | None => elems !! k
    end.
Proof.
  revert k.
  apply (map_fold_weak_ind
    (fun r (m : gmap string (Z * Z)) => ∀ k,
       r !! k = match m !! k with
                | Some pos => Some (Cursors.Elem pos.1 pos.2)
                | None => elems !! k
                end)).
  - intros k. by rewrite lookup_empty.
  - intros i x m r Hi IH k. rewrite !lookup_insert.
    case_decide; [done|apply IH].
Qed.

(** X29. After [setRemoteCursor] or [removeRemoteCursor] the overlay
    holds exactly one marker for each cursor known, placed at that
    cursor's coordinates, whatever markers it held before. *)
Theorem X29_overlay_mirrors_cursors
    (uid : string) (x y : Z) (st : Cursors.state) :
  let mk := fun pos : Z * Z => Cursors.Elem pos.1 pos.2 in
  Cursors.cursorElems (Cursors.setRemoteCursor uid x y st)
  = mk <$> <[uid := (x, y)]> (Cursors.cursors st)
  ∧ Cursors.cursorElems (Cursors.removeRemoteCursor uid st)
    = mk <$> delete uid (Cursors.cursors st).
Proof.
  assert (H : ∀ s, Cursors.cursorElems (Cursors.drawRemoteCursors s)
                   = (fun pos : Z * Z => Cursors.Elem pos.1 pos.2)
                       <$> Cursors.cursors s).
  { intros s. apply map_eq. intros k. unfold Cursors.drawRemoteCursors.
    cbn [Cursors.cursorElems]. rewrite lookup_fmap.
    destruct (Cursors.cursors s !! k) as [pos|] eqn:E; simpl.
    - apply map_lookup_filter_Some. split; [|simpl; by rewrite E].
      by rewrite placed_lookup, E.
    - apply map_lookup_filter_None. right. intros el _ [pos Hpos].
      simpl in Hpos. congruence. }
  split; apply H.
Qed.
